(** * Shallow embedding of the Shakespeare Q&A retrieval code (build-equi)

    Strings of the TypeScript code are modelled as lists of ASCII
    characters (the MIT corpus is an ASCII file); JS [\s] is therefore the
    ASCII whitespace TAB, LF, VT, FF, CR and SPACE, and the regex [.] matches
    every character except the line terminators LF and CR.  Numbers used as
    lengths and scores are [nat]. *)

From Stdlib Require Import Ascii String List Bool Arith Lia.
From Stdlib Require Import Sorting.Permutation Sorting.Sorted.
From Stdlib Require Import ZArith.
From Stdlib Require QArith.QArith_base.
Import ListNotations.
Set Warnings "-register-all,-abstract-large-number".
Open Scope list_scope.

(** ** Text primitives *)
Module Text.

Definition str := list ascii.

(** String literals of the source, as character lists. *)
Definition lit (s : string) : str := list_ascii_of_string s.

Definition NL : ascii := "010"%char.
Definition CR : ascii := "013"%char.
Definition SP : ascii := " "%char.

(** [String.prototype.toLowerCase] on ASCII: A-Z to a-z. *)
Definition to_lower_char (c : ascii) : ascii :=
  let n := nat_of_ascii c in
  if (65 <=? n) && (n <=? 90) then ascii_of_nat (n + 32) else c.

Definition toLowerCase (s : str) : str := map to_lower_char s.

(** JS [\s] on ASCII: TAB, LF, VT, FF, CR, SPACE. *)
Definition is_space (c : ascii) : bool :=
  let n := nat_of_ascii c in ((9 <=? n) && (n <=? 13)) || (n =? 32).

(** JS line terminators on ASCII (the characters [.] does not match). *)
Definition is_line_term (c : ascii) : bool :=
  Ascii.eqb c NL || Ascii.eqb c CR.

Fixpoint drop_spaces (s : str) : str :=
  match s with
  | c :: s' => if is_space c then drop_spaces s' else s
  | [] => []
  end.

(** Drops the trailing whitespace of [s]. *)
Fixpoint drop_trailing_spaces (s : str) : str :=
  match s with
  | [] => []
  | c :: s' =>
      match drop_trailing_spaces s' with
      | [] => if is_space c then [] else [c]
      | r => c :: r
      end
  end.

(** [String.prototype.trim]. *)
Definition trim (s : str) : str := drop_trailing_spaces (drop_spaces s).

(** [s.split(sep)] for a one-character separator string. *)
Fixpoint split_char_go (sep : ascii) (s : str) (cur : str) : list str :=
  match s with
  | [] => [rev' cur]
  | c :: s' =>
      if Ascii.eqb c sep then rev' cur :: split_char_go sep s' []
      else split_char_go sep s' (c :: cur)
  end.

Definition split_char (sep : ascii) (s : str) : list str := split_char_go sep s [].

Fixpoint prefixb (p s : str) : bool :=
  match p, s with
  | [], _ => true
  | a :: p', b :: s' => Ascii.eqb a b && prefixb p' s'
  | _ :: _, [] => false
  end.

(** [s.includes(k)]. *)
Fixpoint includes (s k : str) : bool :=
  prefixb k s ||
  match s with
  | [] => false
  | _ :: s' => includes s' k
  end.

(** [arr.join(sep)]. *)
Definition join (sep : str) (l : list str) : str :=
  match l with
  | [] => []
  | x :: xs => x ++ List.concat (map (fun y => sep ++ y) xs)
  end.

End Text.

(** ** Relevance ranker: [findRelevantPassages] *)
Module Ranker.
Import Text.

(** [question.toLowerCase().split(' ').filter(word => word.length > thr)];
    [thr] is 2 in ask-gemini/route.ts and part_000, 3 in part_001. *)
Definition keywords (thr : nat) (question : str) : list str :=
  filter (fun word => thr <? length word) (split_char SP (toLowerCase question)).

(** [keywords.reduce((acc, keyword) => acc + (lower.includes(keyword) ? 1 : 0), 0)];
    the [for]/[score++] loop of part_001 computes the same fold. *)
Definition score (kws : list str) (lower : str) : nat :=
  fold_left (fun acc keyword => acc + (if includes lower keyword then 1 else 0)) kws 0.

(** Sentence terminators of the class [[.!?]]. *)
Definition is_term (c : ascii) : bool :=
  Ascii.eqb c "."%char || Ascii.eqb c "!"%char || Ascii.eqb c "?"%char.

(** [text.split(/[.!?]+/)]: each maximal run of terminators separates two
    pieces; [in_run] records that the previous character was a terminator. *)
Fixpoint split_terms_go (s : str) (cur : str) (in_run : bool) : list str :=
  match s with
  | [] => [rev' cur]
  | c :: s' =>
      if is_term c then
        if in_run then split_terms_go s' [] true
        else rev' cur :: split_terms_go s' [] true
      else split_terms_go s' (c :: cur) false
  end.

Definition split_terms (s : str) : list str := split_terms_go s [] false.

(** Sentence mode (ask-gemini/route.ts lines 150-172, part_000 lines 43-65). *)
Record scored := { sentence : str; sc : nat }.

(** [.filter(s => s.trim().length > 50)] *)
Definition candidates (text : str) : list str :=
  filter (fun s => 50 <? length (trim s)) (split_terms text).

(** [{ sentence: sentence.trim(), score }] with the score on the untrimmed,
    lower-cased sentence. *)
Definition score_sentence (kws : list str) (s : str) : scored :=
  {| sentence := trim s; sc := score kws (toLowerCase s) |}.

(** [scoredSentences.sort((a, b) => b.score - a.score)]: [Array.prototype.sort]
    is stable, so the result is the stable descending sort by score, computed
    here by insertion: an element goes before the first one of lower or equal
    score of the (already sorted) rest, which comes after it in the input. *)
Fixpoint insert_desc (x : scored) (l : list scored) : list scored :=
  match l with
  | [] => [x]
  | y :: l' => if sc y <=? sc x then x :: l else y :: insert_desc x l'
  end.

Fixpoint sort_desc (l : list scored) : list scored :=
  match l with
  | [] => []
  | x :: l' => insert_desc x (sort_desc l')
  end.

(** The [for (const item of scoredSentences)] loop. *)
Fixpoint append_loop (maxLength : nat) (items : list scored) (result : str) : str :=
  match items with
  | [] => result
  | item :: rest =>
      let result' :=
        if (0 <? sc item) && (length result + length (sentence item) <? maxLength)
        then result ++ sentence item ++ lit ". "
        else result in
      append_loop maxLength rest result'
  end.

(** [return result || text.substring(0, maxLength)] *)
Definition findRelevantPassages_sentences (text question : str) (maxLength : nat) : str :=
  let kws := keywords 2 question in
  let scoredSentences := map (score_sentence kws) (candidates text) in
  let result := append_loop maxLength (sort_desc scoredSentences) [] in
  match result with
  | [] => firstn maxLength text
  | _ => result
  end.

(** Default [maxLength] of the callers. *)
Definition default_maxLength : nat := 8000.

(** Line mode (part_001 lines 85-107). *)
Fixpoint collect_lines (kws : list str) (lines : list str) : list str :=
  match lines with
  | [] => []
  | line :: rest =>
      let s := score kws (toLowerCase line) in
      if (0 <? s) && (20 <? length (trim line))
      then trim line :: collect_lines kws rest
      else collect_lines kws rest
  end.

Definition findRelevantPassages_lines (question completeWorks : str) : str :=
  let kws := keywords 3 question in
  let lines := split_char NL completeWorks in
  let relevantText := join [NL] (collect_lines kws lines) in
  if 1500 <? length relevantText
  then firstn 1500 relevantText ++ lit "..."
  else relevantText.

End Ranker.

(** ** Corpus loader: the normalisation of [fetchMITShakespeareText]
    (ask-gemini/route.ts lines 19-63, ingest-mit/route.ts lines 18-62) *)
Module Loader.
Import Text.

(** A regex tried at the start of a string: [Some (replacement, rest)] when it
    matches a non-empty prefix, [rest] being what follows the match. *)
Definition matcher := str -> option (str * str).

(** [s.replace(/re/g, repl)]: the leftmost match is replaced and the search
    resumes after it; a position where the regex does not match keeps its
    character.  [fuel] bounds the number of positions visited. *)
Fixpoint replace_fuel (fuel : nat) (m : matcher) (s : str) : str :=
  match fuel with
  | 0 => s
  | S f =>
      match s with
      | [] => []
      | c :: s' =>
          match m s with
          | Some (r, rest) => r ++ replace_fuel f m rest
          | None => c :: replace_fuel f m s'
          end
      end
  end.

Definition replace_all (m : matcher) (s : str) : str := replace_fuel (length s) m s.

(** [/\r\n/] -> ['\n'] *)
Definition m_crlf : matcher := fun s =>
  match s with
  | c :: d :: rest => if Ascii.eqb c CR && Ascii.eqb d NL then Some ([NL], rest) else None
  | _ => None
  end.

(** [/\r/] -> ['\n'] *)
Definition m_cr : matcher := fun s =>
  match s with
  | c :: rest => if Ascii.eqb c CR then Some ([NL], rest) else None
  | [] => None
  end.

(** Maximal whitespace prefix and the rest. *)
Fixpoint span_spaces (s : str) : str * str :=
  match s with
  | c :: s' => if is_space c then let (a, b) := span_spaces s' in (c :: a, b) else ([], s)
  | [] => ([], [])
  end.

(** Splits a whitespace run at its last newline: the part up to and with that
    newline, and the part after it. *)
Fixpoint split_last_nl (run : str) : option (str * str) :=
  match run with
  | [] => None
  | c :: run' =>
      match split_last_nl run' with
      | Some (a, b) => Some (c :: a, b)
      | None => if Ascii.eqb c NL then Some ([c], run') else None
      end
  end.

(** [/\n\s*\n/] -> [repl]: the greedy [\s*] backtracks to the last newline of
    the whitespace run following the first newline. *)
Definition m_blank (repl : str) : matcher := fun s =>
  match s with
  | c :: s' =>
      if Ascii.eqb c NL then
        let (run, rest) := span_spaces s' in
        match split_last_nl run with
        | Some (_, after) => Some (repl, after ++ rest)
        | None => None
        end
      else None
  | [] => None
  end.

(** [.*?close]: the shortest run of non-line-terminators followed by
    [close]; returns what follows [close]. *)
Fixpoint lazy_until (close : str) (s : str) : option str :=
  if prefixb close s then Some (skipn (length close) s)
  else match s with
       | [] => None
       | c :: s' => if is_line_term c then None else lazy_until close s'
       end.

(** [/open.*?close/] -> [''] *)
Definition m_delimited (open close : str) : matcher := fun s =>
  if prefixb open s then
    match lazy_until close (skipn (length open) s) with
    | Some rest => Some ([], rest)
    | None => None
    end
  else None.

Definition m_brackets : matcher := m_delimited (lit "[") (lit "]").
Definition m_angles : matcher := m_delimited (lit "<<") (lit ">>").
Definition m_notice : matcher :=
  m_delimited (lit "THIS ELECTRONIC VERSION") (lit "PERMISSION.").

(** [/\s+/] -> [' '] *)
Definition m_spaces : matcher := fun s =>
  match s with
  | c :: s' => if is_space c then Some ([SP], drop_spaces s') else None
  | [] => None
  end.

(** [text.indexOf(marker)] *)
Fixpoint indexOf_go (s pat : str) (i : nat) : option nat :=
  if prefixb pat s then Some i
  else match s with
       | [] => None
       | _ :: s' => indexOf_go s' pat (S i)
       end.

Definition indexOf (s pat : str) : option nat := indexOf_go s pat 0.

Definition startMarkers : list str :=
  map lit ["THE COMPLETE WORKS OF WILLIAM SHAKESPEARE"; "THE SONNETS"; "VENUS AND ADONIS";
           "THE RAPE OF LUCRECE"; "THE PHOENIX AND THE TURTLE"; "A LOVER'S COMPLAINT"]%string.

Definition playMarkers : list str :=
  map lit ["HAMLET"; "MACBETH"; "ROMEO AND JULIET"; "JULIUS CAESAR"]%string.

(** The [for (const marker of ...)] loops with [break]: the index of the first
    marker of the list that occurs. *)
Fixpoint first_marker_index (text : str) (markers : list str) : option nat :=
  match markers with
  | [] => None
  | mk :: rest =>
      match indexOf text mk with
      | Some i => Some i
      | None => first_marker_index text rest
      end
  end.

Definition startIndex (text : str) : option nat :=
  match first_marker_index text startMarkers with
  | Some i => Some i
  | None => first_marker_index text playMarkers
  end.

(** [if (startIndex !== -1) text = text.substring(startIndex)] *)
Definition discard_prefix (text : str) : str :=
  match startIndex text with
  | Some i => skipn i text
  | None => text
  end.

(** The [.replace(...)] chain and [.trim()]. *)
Definition cleanup (text : str) : str :=
  trim (replace_all m_notice (replace_all m_angles (replace_all m_spaces
    (replace_all m_brackets (replace_all (m_blank [NL; NL])
      (replace_all m_cr (replace_all m_crlf text))))))).

(** The text returned by [fetchMITShakespeareText] for a fetched body. *)
Definition normalize (raw : str) : str := cleanup (discard_prefix raw).

(** Second, spec-side definition for claim C7: the same steps with the marker
    discard performed last, as the spec lists them. *)
Definition spec_normalize (raw : str) : str := discard_prefix (cleanup raw).

End Loader.

(** ** Chunker of the Gemini ingestion route (part_002 lines 25-93) *)
Module Chunker.
Import Text Loader.

(** [.{1,n}] tried at the start of a string (greedy): up to [n] characters
    that are not line terminators; the match and the rest. *)
Fixpoint take_dots (n : nat) (s : str) : str * str :=
  match n, s with
  | 0, _ => ([], s)
  | S n', c :: s' =>
      if is_line_term c then ([], s)
      else let (a, b) := take_dots n' s' in (c :: a, b)
  | S _, [] => ([], [])
  end.

(** [text.match(/.{1,n}/g) || []]: all matches, left to right; a position
    holding a line terminator does not match and is skipped. *)
Fixpoint match_all_fuel (fuel n : nat) (s : str) : list str :=
  match fuel with
  | 0 => []
  | S f =>
      match s with
      | [] => []
      | c :: s' =>
          if is_line_term c then match_all_fuel f n s'
          else let (m, rest) := take_dots n s in m :: match_all_fuel f n rest
      end
  end.

Definition match_dots (n : nat) (text : str) : list str :=
  match_all_fuel (length text) n text.

Definition chunk_size : nat := 1000.

(** [const chunks = text.match(/.{1,1000}/g) || []] *)
Definition play_chunks (text : str) : list str := match_dots chunk_size text.

(** The cleanup of [fetchPlayText]:
    [.replace(/\s+/g, ' ').replace(/\[.*?\]/g, '').replace(/\n\s*\n/g, '\n').trim()] *)
Definition clean_play_text (text : str) : str :=
  trim (replace_all (m_blank [NL]) (replace_all m_brackets (replace_all m_spaces text))).

End Chunker.

(** ** The POST handlers of the Q&A routes *)
Module Handlers.
Import Text Ranker.

(** A parsed JSON request body. *)
Inductive json :=
| JNull
| JBool (b : bool)
| JNum (q : QArith_base.Q)
| JStr (s : str)
| JArr (l : list json)
| JObj (fields : list (string * json)).

(** A JavaScript value read from the body: [undefined] or a JSON value. *)
Inductive jsval := Undefined | Val (j : json).

(** Property lookup on a parsed object; [JSON.parse] keeps the last of
    duplicate keys. *)
Fixpoint lookup_last (k : string) (fields : list (string * json)) : jsval :=
  match fields with
  | [] => Undefined
  | (k', v) :: rest =>
      match lookup_last k rest with
      | Undefined => if String.eqb k k' then Val v else Undefined
      | r => r
      end
  end.

(** [const { question } = await req.json()]: destructuring [null] throws a
    TypeError; any other non-object value has no [question] property. *)
Definition get_question (body : json) : option jsval :=
  match body with
  | JNull => None
  | JObj fs => Some (lookup_last "question" fs)
  | _ => Some Undefined
  end.

(** JavaScript truthiness of a JSON value. *)
Definition truthy (j : json) : bool :=
  match j with
  | JNull => false
  | JBool b => b
  | JNum q => negb (QArith_base.Qeq_bool q (QArith_base.Qmake BinNums.Z0 BinNums.xH))
  | JStr s => match s with [] => false | _ => true end
  | JArr _ | JObj _ => true
  end.

Inductive response :=
| Json (status : nat) (fields : list (string * json))
| Thrown.

(** Downstream work performed by a handler, in order. *)
Inductive effect := LoadCorpus | Retrieve | Generate.

Inductive result (A : Type) := Ok (a : A) | Err (message : str).
Arguments Ok {A} a.
Arguments Err {A} message.

Definition no_question : response := Json 400 [("error"%string, JStr (lit "No question provided."))].

(** ask/route.ts: [getVectorStore], the similarity search and the LLM call
    are the downstream capabilities. *)
Record vector_env := {
  vs_store : result unit;
  vs_search : json -> result (list str);
  vs_generate : str -> json -> result str
}.

Definition ask_note : str :=
  lit "If you see this error, it means the Shakespeare data needs to be ingested first. Run POST /api/ingest to populate the database.".

Definition ask_error (msg : str) : response :=
  Json 500 [("error"%string, JStr msg); ("note"%string, JStr ask_note)].

Definition ask_POST (env : vector_env) (body : json) : response * list effect :=
  match get_question body with
  | None => (Thrown, [])
  | Some Undefined => (no_question, [])
  | Some (Val q) =>
      if negb (truthy q) then (no_question, []) else
      match vs_store env with
      | Err msg => (ask_error msg, [LoadCorpus])
      | Ok _ =>
          match vs_search env q with
          | Err msg => (ask_error msg, [LoadCorpus; Retrieve])
          | Ok docs =>
              let context := join ([NL] ++ lit "---" ++ [NL]) docs in
              match vs_generate env context q with
              | Err msg => (ask_error msg, [LoadCorpus; Retrieve; Generate])
              | Ok answer =>
                  (Json 200 [("answer"%string, JStr answer)], [LoadCorpus; Retrieve; Generate])
              end
          end
      end
  end.

(** ask-gemini/route.ts: [getShakespeareData()] (which returns '' when no
    source works) and [model.generateContent]. *)
Record gemini_env := {
  gm_data : str;
  gm_generate : str -> result str
}.

Definition gemini_prompt (relevantText question : str) : str :=
  lit "You are a Shakespeare expert. Use the following passages from Shakespeare's complete works from MIT OpenCourseWare to answer the question."
  ++ [NL; NL] ++ lit "Relevant passages:" ++ [NL] ++ relevantText ++ [NL; NL]
  ++ lit "Question: " ++ question ++ [NL; NL]
  ++ lit "Please provide a detailed, accurate answer based on the passages above. If you can identify specific plays, characters, or scenes, please mention them.".

Definition gemini_failure : response :=
  Json 500 [("error"%string, JStr (lit "Failed to process question with Gemini API."));
            ("note"%string, JStr (lit "Please try again or use a different AI provider."))].

Definition gemini_POST (env : gemini_env) (body : json) : response * list effect :=
  match get_question body with
  | None => (Thrown, [])
  | Some Undefined => (no_question, [])
  | Some (Val q) =>
      if negb (truthy q) then (no_question, []) else
      match gm_data env with
      | [] =>
          (Json 500 [("error"%string, JStr (lit "Failed to load Shakespeare data. Please try again."));
                     ("note"%string, JStr (lit "Auto-ingestion failed. You may want to check your internet connection."))],
           [LoadCorpus])
      | text =>
          match q with
          | JStr question =>
              let relevantText := findRelevantPassages_sentences text question default_maxLength in
              match gm_generate env (gemini_prompt relevantText question) with
              | Ok answer =>
                  (Json 200 [("answer"%string, JStr answer); ("model"%string, JStr (lit "gemini-1.5-flash"));
                             ("source"%string, JStr (lit "MIT OpenCourseWare"));
                             ("note"%string, JStr (lit "Using Google Gemini API with MIT OpenCourseWare Shakespeare data."))],
                   [LoadCorpus; Retrieve; Generate])
              | Err _ => (gemini_failure, [LoadCorpus; Retrieve; Generate])
              end
          (* [question.toLowerCase] is not a function: TypeError, caught *)
          | _ => (gemini_failure, [LoadCorpus; Retrieve])
          end
      end
  end.

(** part_001: [getMITShakespeareData()] returns the file content or [null]. *)
Definition knowledge_line (title : str) (quotes themes : list str) (label : str) (last : list str) : str :=
  title ++ lit " - Key Quotes: " ++ join (lit " ") quotes ++ lit " Themes: " ++ join (lit ", ") themes
  ++ lit " " ++ label ++ lit ": " ++ join (lit ", ") last.

(** [findRelevantInfo(question)] over [SHAKESPEARE_KNOWLEDGE]. *)
Definition findRelevantInfo (question : str) : str :=
  let questionLower := toLowerCase question in
  if includes questionLower (lit "hamlet") then
    knowledge_line (lit "Hamlet")
      (map lit ["To be, or not to be, that is the question."; "The rest is silence.";
                "Something is rotten in the state of Denmark."; "The lady doth protest too much, methinks."]%string)
      (map lit ["Death"; "Revenge"; "Madness"; "Corruption"; "Existentialism"]%string)
      (lit "Characters") (map lit ["Hamlet"; "Ophelia"; "Claudius"; "Gertrude"; "Polonius"]%string)
  else if includes questionLower (lit "macbeth") then
    knowledge_line (lit "Macbeth")
      (map lit ["Is this a dagger which I see before me?"; "Out, damned spot! Out, I say!";
                "Fair is foul, and foul is fair."; "Double, double toil and trouble."]%string)
      (map lit ["Ambition"; "Power"; "Guilt"; "Fate"; "Supernatural"]%string)
      (lit "Characters") (map lit ["Macbeth"; "Lady Macbeth"; "Banquo"; "Duncan"; "Macduff"]%string)
  else if includes questionLower (lit "romeo") || includes questionLower (lit "juliet") then
    knowledge_line (lit "Romeo and Juliet")
      (map lit ["But, soft! what light through yonder window breaks?"; "Romeo, Romeo, wherefore art thou Romeo?";
                "A plague on both your houses!"; "For never was a story of more woe than this of Juliet and her Romeo."]%string)
      (map lit ["Love"; "Fate"; "Youth"; "Family Conflict"; "Death"]%string)
      (lit "Characters") (map lit ["Romeo"; "Juliet"; "Mercutio"; "Tybalt"; "Friar Lawrence"]%string)
  else
    knowledge_line (lit "Shakespeare's Works")
      (map lit ["All the world's a stage, and all the men and women merely players.";
                "The quality of mercy is not strained."; "Friends, Romans, countrymen, lend me your ears.";
                "What's in a name? That which we call a rose by any other name would smell as sweet."]%string)
      (map lit ["Human Nature"; "Power"; "Love"; "Revenge"; "Fate"]%string)
      (lit "Works") (map lit ["37 plays"; "154 sonnets"; "Various poems"]%string).

Definition demo_failure : response :=
  Json 500 [("error"%string, JStr (lit "Failed to process question."));
            ("note"%string, JStr (lit "Please try again or run the MIT ingestion process for better results."))].

Definition demo_POST (mitData : option str) (body : json) : response * list effect :=
  match get_question body with
  | None => (Thrown, [])
  | Some Undefined => (no_question, [])
  | Some (Val q) =>
      if negb (truthy q) then (no_question, []) else
      match mitData, q with
      | Some ((_ :: _) as data), JStr question =>
          let relevantPassages := findRelevantPassages_lines question data in
          (Json 200 [("answer"%string, JStr (lit "Based on Shakespeare's complete works from MIT OpenCourseWare:"
                        ++ [NL; NL] ++ relevantPassages ++ [NL; NL]
                        ++ lit "This response is based on the actual text of Shakespeare's works, providing authentic quotes and passages."));
                     ("source"%string, JStr (lit "MIT OpenCourseWare"));
                     ("note"%string, JStr (lit "Using MIT Shakespeare source for authentic responses."))],
           [LoadCorpus; Retrieve])
      | Some (_ :: _), _ => (demo_failure, [LoadCorpus; Retrieve])
      | _, JStr question =>
          (Json 200 [("answer"%string, JStr (lit "Based on Shakespeare's works, here's what I can tell you:"
                        ++ [NL; NL] ++ findRelevantInfo question ++ [NL; NL]
                        ++ lit "This is a demo response using famous Shakespeare quotes and knowledge. For more detailed analysis of specific plays, the full RAG system would provide context from the complete works."));
                     ("source"%string, JStr (lit "Demo Knowledge"));
                     ("note"%string, JStr (lit "This is a demo response using famous Shakespeare quotes. For full functionality with the complete works, run the MIT ingestion process."))],
           [LoadCorpus; Retrieve])
      | _, _ => (demo_failure, [LoadCorpus; Retrieve])
      end
  end.

End Handlers.

(** ** Ingestion routes: play-text cleanup and chunk counts (part_002),
    [extractPlays] and the play file names (ingest-mit/route.ts), and the
    hash of [createSimpleEmbeddings] (part_002) *)
Module Ingest.
Import Text Loader Chunker Handlers.

(** The second [fetchPlayText] of part_002 (lines 152-175):
    [text.replace(/\s+/g, ' ').trim()], then [.replace(/\[.*?\]/g, '')],
    then [.replace(/\n\s*\n/g, '\n')]. *)
Definition clean_play_text_simple (text : str) : str :=
  replace_all (m_blank [NL]) (replace_all m_brackets (trim (replace_all m_spaces text))).

(** [Math.ceil(length / d)]: the floating-point quotient of two lengths below
    2^42 is an integer exactly when the exact quotient is, so its ceiling is
    the integer ceiling. *)
Definition ceil_div (n d : nat) : nat := (n + d - 1) / d.

(** *** Gemini-powered ingestion, part_002 lines 11-128 *)

Definition SHAKESPEARE_WORKS : list string :=
  ["hamlet"; "macbeth"; "romeo"; "julius_caesar"; "othello"; "king_lear";
   "midsummer"; "merchant"; "tempest"; "twelfth_night"]%string.

(** The file system and the network: [ie_mkdir] and [ie_write file] are the
    rejection message of [fs.mkdir] and [fs.writeFile], if any; [ie_fetch play]
    is [$('body').text()] of the fetched page, [None] when [axios.get] or
    [cheerio] throws. *)
Record ingest_env := {
  ie_mkdir : option str;
  ie_fetch : string -> option str;
  ie_write : string -> option str
}.

Inductive ingest_effect :=
| WriteFile (file : string) (contents : str)
| WriteIndex (totalPlays totalChunks : nat) (plays : list string).

(** [fetchPlayText(playName)] (lines 25-50): the cleaned body text, or ['']
    when the fetch fails. *)
Definition fetchPlayText (env : ingest_env) (play : string) : str :=
  match ie_fetch env play with
  | Some body => clean_play_text body
  | None => []
  end.

(** The [for (const play of SHAKESPEARE_WORKS)] loop: [inl message] when a
    [writeFile] rejects, with the effects performed before. *)
Fixpoint ingest_loop (env : ingest_env) (works : list string) (allChunks : list str)
    (totalPlays : nat) (eff : list ingest_effect)
    : (str + (list str * nat)) * list ingest_effect :=
  match works with
  | [] => (inr (allChunks, totalPlays), eff)
  | play :: rest =>
      match fetchPlayText env play with
      | [] => ingest_loop env rest allChunks totalPlays eff
      | text =>
          let chunks := play_chunks text in
          let file := (play ++ ".txt")%string in
          match ie_write env file with
          | Some msg => (inl msg, eff)
          | None =>
              ingest_loop env rest (allChunks ++ chunks) (S totalPlays)
                (eff ++ [WriteFile file text])
          end
      end
  end.

Definition jnum (n : nat) : json := JNum (QArith_base.Qmake (Z.of_nat n) 1).

(** [catch (error: any)]: [{ error: error.message }], status 500. *)
Definition ingest_error (msg : str) : response := Json 500 [("error"%string, JStr msg)].

Definition ingest_no_data : response :=
  Json 500 [("error"%string, JStr (lit "No Shakespeare data could be fetched. Please check the GitHub repository availability."))].

Definition ingest_POST (env : ingest_env) : response * list ingest_effect :=
  match ie_mkdir env with
  | Some msg => (ingest_error msg, [])
  | None =>
      match ingest_loop env SHAKESPEARE_WORKS [] 0 [] with
      | (inl msg, eff) => (ingest_error msg, eff)
      | (inr (allChunks, totalPlays), eff) =>
          match allChunks with
          | [] => (ingest_no_data, eff)
          | _ =>
              (* the callback of [filter] returns a Promise, which is truthy *)
              let indexPlays := filter (fun _ => true) SHAKESPEARE_WORKS in
              match ie_write env "index.json"%string with
              | Some msg => (ingest_error msg, eff)
              | None =>
                  (Json 200 [("message"%string, JStr (lit "Shakespeare data ingested successfully using Gemini-powered processing"));
                             ("plays"%string, jnum totalPlays);
                             ("chunks"%string, jnum (length allChunks));
                             ("note"%string, JStr (lit "Data saved to shakespeare_data directory. You can now use the Gemini-powered Q&A endpoints."))],
                   eff ++ [WriteIndex totalPlays (length allChunks) indexPlays])
              end
          end
      end
  end.

(** *** [createSimpleEmbeddings], part_002 lines 52-66: the hash *)

Definition two32 : Z := 4294967296.

(** ECMAScript ToInt32. *)
Definition ToInt32 (z : Z) : Z :=
  let r := Z.modulo z two32 in
  if Z.ltb r 2147483648 then r else (r - two32)%Z.

(** [a = ((a << 5) - a) + b.charCodeAt(0); return a & a;]: [<<] and [&]
    convert to int32; the subtraction and addition are exact on doubles for
    these magnitudes. *)
Definition hash_step (a : Z) (b : ascii) : Z :=
  let a' := (ToInt32 (ToInt32 a * 32) - a + Z.of_nat (nat_of_ascii b))%Z in
  ToInt32 a'.

(** [text.split('').reduce(hash_step, 0)] *)
Definition simple_hash (text : str) : Z := fold_left hash_step text 0%Z.

(** Polynomial hash with multiplier 31 over the integers (the Java
    [String.hashCode] before the 32-bit wrap-around). *)
Definition poly31 (text : str) : Z :=
  fold_left (fun h c => 31 * h + Z.of_nat (nat_of_ascii c))%Z text 0%Z.

(** *** [extractPlays], ingest-mit/route.ts lines 72-113 *)

Definition to_upper_char (c : ascii) : ascii :=
  let n := nat_of_ascii c in
  if (97 <=? n) && (n <=? 122) then ascii_of_nat (n - 32) else c.

Definition toUpperCase (s : str) : str := map to_upper_char s.

Definition playTitles : list str :=
  map lit ["HAMLET"; "MACBETH"; "ROMEO AND JULIET"; "JULIUS CAESAR"; "OTHELLO"; "KING LEAR";
    "A MIDSUMMER NIGHT'S DREAM"; "THE MERCHANT OF VENICE"; "THE TEMPEST"; "TWELFTH NIGHT";
    "AS YOU LIKE IT"; "MUCH ADO ABOUT NOTHING"; "THE TAMING OF THE SHREW"; "HENRY V";
    "RICHARD III"; "ANTONY AND CLEOPATRA"; "CORIOLANUS"; "TITUS ANDRONICUS"; "TIMON OF ATHENS";
    "TROILUS AND CRESSIDA"; "LOVE'S LABOUR'S LOST"; "ALL'S WELL THAT ENDS WELL";
    "MEASURE FOR MEASURE"; "THE COMEDY OF ERRORS"; "THE TWO GENTLEMEN OF VERONA";
    "THE WINTER'S TALE"; "CYMBELINE"; "PERICLES"; "THE TWO NOBLE KINSMEN";
    "HENRY IV, PART 1"; "HENRY IV, PART 2"; "HENRY VI, PART 1"; "HENRY VI, PART 2";
    "HENRY VI, PART 3"; "HENRY VIII"; "RICHARD II"; "KING JOHN"]%string.

(** [s.split(re)] for a regex that matches only non-empty strings, tried at
    each position as in [replace_fuel]; [cur] is the current piece, reversed. *)
Fixpoint split_re_fuel (fuel : nat) (m : matcher) (s cur : str) : list str :=
  match fuel with
  | 0 => [rev' cur ++ s]
  | S f =>
      match s with
      | [] => [rev' cur]
      | c :: s' =>
          match m s with
          | Some (_, rest) => rev' cur :: split_re_fuel f m rest []
          | None => split_re_fuel f m s' (c :: cur)
          end
      end
  end.

Definition split_re (m : matcher) (s : str) : list str := split_re_fuel (S (length s)) m s [].

(** The inner [for (const title of playTitles)] loop with [break]. *)
Fixpoint find_title (upperSection : str) (titles : list str) : option str :=
  match titles with
  | [] => None
  | title :: rest => if includes upperSection title then Some title else find_title upperSection rest
  end.

(** JavaScript truthiness of a string. *)
Definition nonempty (s : str) : bool := match s with [] => false | _ => true end.

(** The object [plays]: property assignment keeps the position of an
    existing key and appends a new one (no title is an array index). *)
Fixpoint set_prop (k v : str) (plays : list (str * str)) : list (str * str) :=
  match plays with
  | [] => [(k, v)]
  | (k', v') :: rest =>
      if list_eq_dec ascii_dec k k' then (k', v) :: rest else (k', v') :: set_prop k v rest
  end.

Fixpoint get_prop (k : str) (plays : list (str * str)) : option str :=
  match plays with
  | [] => None
  | (k', v') :: rest => if list_eq_dec ascii_dec k k' then Some v' else get_prop k rest
  end.

Record extract_state := {
  plays : list (str * str);
  currentPlay : str;
  currentPlayText : str
}.

(** [if (currentPlay && currentPlayText.trim()) plays[currentPlay] = currentPlayText.trim()] *)
Definition commit (st : extract_state) : list (str * str) :=
  if nonempty (currentPlay st) && nonempty (trim (currentPlayText st))
  then set_prop (currentPlay st) (trim (currentPlayText st)) (plays st)
  else plays st.

(** The body of [for (const section of sections)]. *)
Definition extract_step (st : extract_state) (section : str) : extract_state :=
  match find_title (toUpperCase section) playTitles with
  | Some title => {| plays := commit st; currentPlay := title; currentPlayText := section |}
  | None =>
      if nonempty (currentPlay st)
      then {| plays := plays st; currentPlay := currentPlay st;
              currentPlayText := currentPlayText st ++ [NL; NL] ++ section |}
      else st
  end.

(** [extractPlays(text)]: [text.split(/\n\s*\n/)], the loop and the final
    assignment. *)
Definition extractPlays (text : str) : list (str * str) :=
  commit (fold_left extract_step (split_re (m_blank []) text)
            {| plays := []; currentPlay := []; currentPlayText := [] |}).

(** *** The play file name of ingest-mit/route.ts line 125 *)

Definition is_lower_alnum (c : ascii) : bool :=
  let n := nat_of_ascii c in ((97 <=? n) && (n <=? 122)) || ((48 <=? n) && (n <=? 57)).

(** [/[^a-z0-9]/] -> ['_'] *)
Definition m_not_alnum : matcher := fun s =>
  match s with
  | c :: rest => if is_lower_alnum c then None else Some (["_"%char], rest)
  | [] => None
  end.

(** [playName.toLowerCase().replace(/[^a-z0-9]/g, '_') + '.txt'] *)
Definition play_filename (playName : str) : str :=
  replace_all m_not_alnum (toLowerCase playName) ++ lit ".txt".

End Ingest.

(** Second, spec-side reading of the tokenisation used by claim C1: the
    question split on runs of whitespace (JS [/\s+/]), empty tokens dropped. *)
Module SpecTokens.
Import Text.

Fixpoint ws_tokens_go (s : str) (cur : str) : list str :=
  match s with
  | [] => [rev' cur]
  | c :: s' => if is_space c then rev' cur :: ws_tokens_go s' [] else ws_tokens_go s' (c :: cur)
  end.

Definition spec_whitespace_tokens (s : str) : list str :=
  filter (fun w => negb (match w with [] => true | _ => false end)) (ws_tokens_go s []).

Definition spec_keywords (thr : nat) (question : str) : list str :=
  filter (fun word => thr <? length word) (spec_whitespace_tokens (toLowerCase question)).

End SpecTokens.

(** ** General lemmas on the text primitives *)
Module TextFacts.
Import Text.

Lemma prefixb_in (p s : str) (c : ascii) :
  prefixb p s = true -> In c p -> In c s.
Proof.
  revert s; induction p as [|a p IH]; intros s Hp Hc; [destruct Hc|].
  destruct s as [|b s]; [discriminate|].
  simpl in Hp; apply andb_true_iff in Hp as [Hab Hp].
  apply Ascii.eqb_eq in Hab; subst b.
  destruct Hc as [<-|Hc]; [left; reflexivity|right; apply (IH s Hp Hc)].
Qed.

Lemma includes_in (s k : str) (c : ascii) :
  includes s k = true -> In c k -> In c s.
Proof.
  induction s as [|b s IH]; intros H Hc; simpl in H.
  - rewrite orb_false_r in H. exact (prefixb_in _ _ _ H Hc).
  - apply orb_true_iff in H as [H|H].
    + exact (prefixb_in _ _ _ H Hc).
    + right; exact (IH H Hc).
Qed.

Lemma split_char_go_nonempty (sep : ascii) (s cur : str) :
  split_char_go sep s cur <> [].
Proof.
  revert cur; induction s as [|a s IH]; intros cur; simpl; [discriminate|].
  destruct (Ascii.eqb a sep); [discriminate|apply IH].
Qed.

Lemma split_char_go_last (sep c : ascii) (s cur : str) :
  c <> sep ->
  exists w, last (split_char_go sep (s ++ [c]) cur) [] = w ++ [c].
Proof.
  intros Hc; revert cur; induction s as [|a s IH]; intros cur; simpl.
  - destruct (Ascii.eqb_spec c sep); [contradiction|].
    exists (rev' cur). unfold rev'. rewrite <- !rev_alt. reflexivity.
  - destruct (Ascii.eqb a sep).
    + destruct (IH []) as [w Hw]. exists w.
      destruct (split_char_go sep (s ++ [c]) []) eqn:E.
      * exfalso; exact (split_char_go_nonempty _ _ _ E).
      * exact Hw.
    + apply IH.
Qed.

Lemma toLowerCase_app (s t : str) : toLowerCase (s ++ t) = toLowerCase s ++ toLowerCase t.
Proof. apply map_app. Qed.

Lemma in_toLowerCase (c : ascii) (s : str) :
  In c (toLowerCase s) -> exists d, In d s /\ to_lower_char d = c.
Proof.
  unfold toLowerCase; intros H; apply in_map_iff in H as [d [Hd Hin]].
  exists d; split; assumption.
Qed.

End TextFacts.

(** ** Facts about the ranker *)
Module RankerFacts.
Import Text Ranker TextFacts.

Lemma score_fold (kws : list str) (lower : str) (a : nat) :
  fold_left (fun acc keyword => acc + (if includes lower keyword then 1 else 0)) kws a
  = a + length (filter (includes lower) kws).
Proof.
  revert a; induction kws as [|k kws IH]; intros a; simpl; [lia|].
  rewrite IH. destruct (includes lower k); simpl; lia.
Qed.

Lemma score_count (kws : list str) (lower : str) :
  score kws lower = length (filter (includes lower) kws).
Proof. unfold score; rewrite score_fold; reflexivity. Qed.

Lemma score_pos_keyword (kws : list str) (lower : str) :
  0 < score kws lower -> exists k, In k kws /\ includes lower k = true.
Proof.
  rewrite score_count; intros H.
  destruct (filter (includes lower) kws) as [|k l] eqn:E; [simpl in H; lia|].
  exists k. apply (filter_In (includes lower) k kws). rewrite E; left; reflexivity.
Qed.

Lemma is_term_to_lower (c : ascii) : is_term (to_lower_char c) = is_term c.
Proof.
  destruct c as [b0 b1 b2 b3 b4 b5 b6 b7].
  destruct b0, b1, b2, b3, b4, b5, b6, b7; reflexivity.
Qed.

Lemma split_terms_go_no_term (s cur : str) (b : bool) (u : str) :
  (forall c, In c cur -> is_term c = false) ->
  In u (split_terms_go s cur b) -> forall c, In c u -> is_term c = false.
Proof.
  revert cur b; induction s as [|a s IH]; intros cur b Hcur Hu; simpl in Hu.
  - destruct Hu as [<-|[]]. intros c Hc; apply Hcur, in_rev; unfold rev' in Hc; rewrite <- rev_alt in Hc; exact Hc.
  - destruct (is_term a) eqn:Ea.
    + destruct b.
      * apply (IH [] true); [intros c []|exact Hu].
      * destruct Hu as [<-|Hu].
        -- intros c Hc; apply Hcur, in_rev; unfold rev' in Hc; rewrite <- rev_alt in Hc; exact Hc.
        -- apply (IH [] true); [intros c []|exact Hu].
    + apply (IH (a :: cur) false); [|exact Hu].
      intros c [<-|Hc]; [exact Ea|apply Hcur, Hc].
Qed.

Lemma split_terms_no_term (s u : str) :
  In u (split_terms s) -> forall c, In c u -> is_term c = false.
Proof. apply split_terms_go_no_term; intros c []. Qed.

(** A keyword with a terminator in it is not a substring of any lower-cased
    sentence piece. *)
Lemma term_keyword_never_matches (text u k : str) :
  In u (split_terms text) ->
  (exists c, In c k /\ is_term c = true) ->
  includes (toLowerCase u) k = false.
Proof.
  intros Hu [c [Hck Hc]].
  destruct (includes (toLowerCase u) k) eqn:E; [|reflexivity].
  exfalso.
  pose proof (includes_in _ _ _ E Hck) as Hin.
  apply in_toLowerCase in Hin as [d [Hd Hdc]].
  pose proof (split_terms_no_term _ _ Hu d Hd) as Hnd.
  rewrite <- Hdc, is_term_to_lower in Hc. congruence.
Qed.

Definition has_term (k : str) : bool := existsb is_term k.

Lemma score_drop_term_keywords (text u : str) (kws : list str) :
  In u (split_terms text) ->
  score kws (toLowerCase u) = score (filter (fun k => negb (has_term k)) kws) (toLowerCase u).
Proof.
  intros Hu. rewrite !score_count.
  induction kws as [|k kws IH]; [reflexivity|].
  simpl. destruct (has_term k) eqn:Hk; simpl.
  - rewrite (term_keyword_never_matches text u k Hu); [exact IH|].
    unfold has_term in Hk; apply existsb_exists in Hk; exact Hk.
  - destruct (includes (toLowerCase u) k); simpl; [f_equal|]; exact IH.
Qed.

End RankerFacts.

(** ** The stable descending sort and the append loop *)
Module SortFacts.
Import Text Ranker.

Definition desc (a b : scored) : Prop := sc b <= sc a.

Inductive subseq {A : Type} : list A -> list A -> Prop :=
| subseq_nil : subseq [] []
| subseq_skip x l l' : subseq l l' -> subseq l (x :: l')
| subseq_take x l l' : subseq l l' -> subseq (x :: l) (x :: l').

Lemma insert_desc_perm (x : scored) (l : list scored) :
  Permutation (insert_desc x l) (x :: l).
Proof.
  induction l as [|y l IH]; simpl; [reflexivity|].
  destruct (sc y <=? sc x); [reflexivity|].
  rewrite IH. apply perm_swap.
Qed.

Lemma sort_desc_perm (l : list scored) : Permutation (sort_desc l) l.
Proof.
  induction l as [|x l IH]; simpl; [reflexivity|].
  rewrite insert_desc_perm, IH; reflexivity.
Qed.

Lemma insert_desc_sorted (x : scored) (l : list scored) :
  Sorted desc l -> Sorted desc (insert_desc x l).
Proof.
  induction l as [|y l IH]; intros Hs; simpl.
  - repeat constructor.
  - destruct (sc y <=? sc x) eqn:E.
    + apply Nat.leb_le in E. constructor; [exact Hs|constructor; exact E].
    + apply Nat.leb_gt in E. apply Sorted_inv in Hs as [Hl Hh].
      constructor; [apply IH, Hl|].
      destruct l as [|z l]; simpl.
      * constructor; unfold desc; lia.
      * inversion Hh; subst. destruct (sc z <=? sc x); constructor; unfold desc in *; lia.
Qed.

Lemma sort_desc_sorted (l : list scored) : Sorted desc (sort_desc l).
Proof.
  induction l as [|x l IH]; simpl; [constructor|].
  apply insert_desc_sorted, IH.
Qed.

(** Among the items of one score, [insert_desc] keeps [x] in front. *)
Lemma insert_desc_filter (x : scored) (l : list scored) (k : nat) :
  filter (fun y => sc y =? k) (insert_desc x l) = filter (fun y => sc y =? k) (x :: l).
Proof.
  induction l as [|y l IH]; simpl; [reflexivity|].
  destruct (sc y <=? sc x) eqn:E; [reflexivity|].
  apply Nat.leb_gt in E. simpl. rewrite IH. simpl.
  destruct (sc x =? k) eqn:Ex, (sc y =? k) eqn:Ey; try reflexivity.
  apply Nat.eqb_eq in Ex, Ey. lia.
Qed.

Lemma sort_desc_stable (l : list scored) (k : nat) :
  filter (fun y => sc y =? k) (sort_desc l) = filter (fun y => sc y =? k) l.
Proof.
  induction l as [|x l IH]; simpl; [reflexivity|].
  rewrite insert_desc_filter. simpl. rewrite IH. reflexivity.
Qed.

Definition emit (items : list scored) : str :=
  List.concat (map (fun it => sentence it ++ lit ". ") items).

Lemma append_loop_selects (m : nat) (items : list scored) (result : str) :
  exists sel, subseq sel items /\ Forall (fun it => 0 < sc it) sel /\
    append_loop m items result = result ++ emit sel.
Proof.
  revert result; induction items as [|it items IH]; intros result; simpl.
  - exists []; repeat split; [constructor|constructor|rewrite app_nil_r; reflexivity].
  - destruct ((0 <? sc it) && (length result + length (sentence it) <? m)) eqn:E.
    + destruct (IH (result ++ sentence it ++ lit ". ")) as [sel [Hs [Hp He]]].
      apply andb_true_iff in E as [E _]; apply Nat.ltb_lt in E.
      exists (it :: sel); repeat split.
      * constructor; exact Hs.
      * constructor; assumption.
      * simpl in He |- *. rewrite He. unfold emit; simpl. rewrite !app_assoc. reflexivity.
    + destruct (IH result) as [sel [Hs [Hp He]]].
      exists sel; repeat split; [constructor; exact Hs|exact Hp|exact He].
Qed.

Lemma append_loop_length (m : nat) (items : list scored) (result : str) :
  length result < m + 2 -> length (append_loop m items result) < m + 2.
Proof.
  revert result; induction items as [|it items IH]; intros result H; simpl; [exact H|].
  apply IH.
  destruct ((0 <? sc it) && (length result + length (sentence it) <? m)) eqn:E; [|exact H].
  apply andb_true_iff in E as [_ E]; apply Nat.ltb_lt in E.
  rewrite !length_app. simpl. lia.
Qed.

Lemma append_loop_app (m : nat) (l1 l2 : list scored) (result : str) :
  append_loop m (l1 ++ l2) result = append_loop m l2 (append_loop m l1 result).
Proof.
  revert result; induction l1 as [|it l1 IH]; intros result; [reflexivity|].
  cbn [app append_loop]. apply IH.
Qed.

Lemma append_loop_extends (m : nat) (items : list scored) (result : str) :
  exists t, append_loop m items result = result ++ t.
Proof.
  destruct (append_loop_selects m items result) as [sel [_ [_ He]]].
  exists (emit sel). exact He.
Qed.

End SortFacts.

Module RankerClaims.
Import Text Ranker TextFacts RankerFacts SortFacts SpecTokens.

Lemma append_loop_all_zero (m : nat) (items : list scored) (result : str) :
  (forall it, In it items -> sc it = 0) -> append_loop m items result = result.
Proof.
  revert result; induction items as [|it items IH]; intros result H; simpl; [reflexivity|].
  rewrite (H it (or_introl eq_refl)). simpl. apply IH. intros x Hx; apply H; right; exact Hx.
Qed.

Lemma score_nil (lower : str) : score [] lower = 0.
Proof. reflexivity. Qed.

Lemma collect_lines_none (kws : list str) (lines : list str) :
  (forall line, In line lines -> score kws (toLowerCase line) = 0 \/ length (trim line) <= 20) ->
  collect_lines kws lines = [].
Proof.
  induction lines as [|l lines IH]; intros H; simpl; [reflexivity|].
  destruct (H l (or_introl eq_refl)) as [E|E].
  - rewrite E. simpl. apply IH. intros x Hx; apply H; right; exact Hx.
  - assert (E' : (20 <? length (trim l)) = false) by (apply Nat.ltb_ge; exact E).
    rewrite E', andb_false_r. apply IH. intros x Hx; apply H; right; exact Hx.
Qed.

(** Concrete inputs. *)
Definition TAB : ascii := "009"%char.

Definition q_tab : str := lit "hamlet" ++ [TAB] ++ lit "death".
Definition u_hamlet : str := lit "Hamlet speaks".

(** A sentence of more than 8000 characters holding two of the three
    keywords, then a short one holding one of them. *)
Definition long_two_kw : str := repeat "x"%char 8000 ++ lit " hamlet death".
Definition short_one_kw : str := lit "Hamlet spoke these words in the castle of Elsinore at night".
Definition corpus_long_first : str := long_two_kw ++ lit "." ++ short_one_kw ++ lit ".".
Definition q_three : str := lit "hamlet death ghost".

Definition corpus_two : str :=
  lit "The ghost of the old king walks upon the battlements at midnight. " ++
  lit "Hamlet speaks with the spirit and learns of the death of his father.".

Definition big_a : str := repeat "a"%char 8001.

Definition q_none : str := lit "zzzz".
Definition corpus_short : str := lit "hello world, a line of verse here".

Lemma find_nonempty (text q : str) (m : nat) (x y : str) :
  append_loop m (sort_desc (map (score_sentence (keywords 2 q)) (candidates text))) [] = x ++ lit ". " ++ y ->
  findRelevantPassages_sentences text q m = x ++ lit ". " ++ y.
Proof.
  intros H. unfold findRelevantPassages_sentences. cbv zeta. rewrite H.
  destruct x; reflexivity.
Qed.

Lemma append_two (m : nat) (a b : scored) :
  sc a = 2 -> sc b = 1 -> length (sentence a) < m ->
  append_loop m [a; b] [] = sentence a ++ lit ". " ++
    (if length (sentence a ++ lit ". ") + length (sentence b) <? m
     then sentence b ++ lit ". " else []).
Proof.
  intros Ha Hb Hm. simpl append_loop. rewrite Ha, Hb.
  apply Nat.ltb_lt in Hm. simpl. rewrite Hm.
  destruct (length (sentence a ++ ["."%char; " "%char]) + length (sentence b) <? m);
    rewrite <- ?app_assoc; reflexivity.
Qed.

(** C1 *)
(** Claim C1 (as amended): the score of a unit is the number of question
    keywords, the lower-cased tokens of [question.split(' ')] longer than the
    threshold, counted with repetition in the keyword list, that are
    substrings of the lower-cased unit; each keyword adds at most 1, and a
    positive score means the lower-cased unit contains some keyword. *)
Theorem score_counts_space_split_keywords (thr : nat) (q u : str) :
  score (keywords thr q) (toLowerCase u)
    = length (filter (includes (toLowerCase u)) (keywords thr q)) /\
  score (keywords thr q) (toLowerCase u) <= length (keywords thr q) /\
  (0 < score (keywords thr q) (toLowerCase u) ->
   exists k, In k (keywords thr q) /\ includes (toLowerCase u) k = true).
Proof.
  split; [apply score_count|split].
  - rewrite score_count. apply filter_length_le.
  - apply score_pos_keyword.
Qed.

Lemma score_counts_space_split_keywords_witness :
  0 < score (keywords 2 (lit "hamlet death")) (toLowerCase u_hamlet) /\
  exists k, In k (keywords 2 (lit "hamlet death")) /\ includes (toLowerCase u_hamlet) k = true.
Proof.
  assert (H : 0 < score (keywords 2 (lit "hamlet death")) (toLowerCase u_hamlet))
    by (vm_compute; lia).
  split; [exact H|].
  exact (proj2 (proj2 (score_counts_space_split_keywords 2 (lit "hamlet death") u_hamlet)) H).
Defined.

(** Counterexample to C1 as stated: with a TAB between two words the question
    is one space-split token, so the unit scores 0, while the whitespace-split
    keyword count of the claim is 1. *)
Lemma score_whitespace_split_counterexample :
  score (keywords 2 q_tab) (toLowerCase u_hamlet) = 0 /\
  length (filter (includes (toLowerCase u_hamlet)) (spec_keywords 2 q_tab)) = 1.
Proof. split; vm_compute; reflexivity. Qed.


(** C2 *)
(** Claim C2 (as amended): in sentence mode the units are stably sorted by
    descending score (a permutation, sorted, and within one score in corpus
    order), and the emitted units are a subsequence of that order; for two
    candidate sentences holding 2 and 1 of 3 keywords, the 2-keyword sentence
    comes first in the result when it is shorter than [maxLength]. *)
Theorem sentence_mode_stable_descending (text q : str) (m : nat) :
  let S := map (score_sentence (keywords 2 q)) (candidates text) in
  (exists sel, subseq sel (sort_desc S) /\ append_loop m (sort_desc S) [] = emit sel) /\
  Sorted desc (sort_desc S) /\ Permutation (sort_desc S) S /\
  (forall k, filter (fun y => sc y =? k) (sort_desc S) = filter (fun y => sc y =? k) S) /\
  (forall a b, length (keywords 2 q) = 3 -> (S = [a; b] \/ S = [b; a]) ->
     sc a = 2 -> sc b = 1 -> length (sentence a) < m ->
     exists rest, findRelevantPassages_sentences text q m = sentence a ++ lit ". " ++ rest /\
       (rest = [] \/ rest = sentence b ++ lit ". ")).
Proof.
  intros S. split; [|split; [|split; [|split]]].
  - destruct (append_loop_selects m (sort_desc S) []) as [sel [Hs [_ He]]].
    exists sel; split; [exact Hs|exact He].
  - apply sort_desc_sorted.
  - apply sort_desc_perm.
  - apply sort_desc_stable.
  - intros a b _ HS Ha Hb Hm.
    assert (Hsort : sort_desc S = [a; b]).
    { destruct HS as [HS|HS]; rewrite HS; simpl; rewrite Ha, Hb; reflexivity. }
    pose proof (append_two m a b Ha Hb Hm) as E. rewrite <- Hsort in E.
    apply find_nonempty in E.
    destruct (length (sentence a ++ lit ". ") + length (sentence b) <? m).
    + exists (sentence b ++ lit ". "). split; [exact E|right; reflexivity].
    + exists []. split; [exact E|left; reflexivity].
Qed.

Lemma sentence_mode_stable_descending_witness :
  exists rest,
    findRelevantPassages_sentences corpus_two q_three default_maxLength =
    sentence (score_sentence (keywords 2 q_three) (lit " Hamlet speaks with the spirit and learns of the death of his father"))
      ++ lit ". " ++ rest.
Proof.
  destruct (proj2 (proj2 (proj2 (proj2 (sentence_mode_stable_descending corpus_two q_three default_maxLength))))
    (score_sentence (keywords 2 q_three) (lit " Hamlet speaks with the spirit and learns of the death of his father"))
    (score_sentence (keywords 2 q_three) (lit "The ghost of the old king walks upon the battlements at midnight"))
    ltac:(vm_compute; reflexivity) ltac:(right; vm_compute; reflexivity)
    ltac:(vm_compute; reflexivity) ltac:(vm_compute; reflexivity) ltac:(vm_compute; lia))
    as [rest [H _]].
  exists rest; exact H.
Defined.

(** Counterexample to C2 as stated: the 2-keyword sentence is longer than
    [maxLength], is skipped, and only the 1-keyword sentence is returned. *)
Lemma sentence_mode_long_first_counterexample :
  map (score_sentence (keywords 2 q_three)) (candidates corpus_long_first)
    = [score_sentence (keywords 2 q_three) long_two_kw;
       score_sentence (keywords 2 q_three) short_one_kw] /\
  length (keywords 2 q_three) = 3 /\
  sc (score_sentence (keywords 2 q_three) long_two_kw) = 2 /\
  sc (score_sentence (keywords 2 q_three) short_one_kw) = 1 /\
  findRelevantPassages_sentences corpus_long_first q_three default_maxLength
    = short_one_kw ++ lit ". " /\
  includes (findRelevantPassages_sentences corpus_long_first q_three default_maxLength)
    (sentence (score_sentence (keywords 2 q_three) long_two_kw)) = false.
Proof. repeat match goal with |- _ /\ _ => split end; vm_compute; reflexivity. Qed.

(** C3 *)
(** Claim C3 (as amended): in sentence mode, when the keyword list is empty or
    no candidate unit scores above 0, [findRelevantPassages] returns
    [text.substring(0, maxLength)], the first [maxLength] characters of the
    corpus; for an empty corpus the result is empty. *)
Theorem sentence_mode_fallback_prefix (text q : str) (m : nat) :
  ((keywords 2 q = [] \/
    forall u, In u (candidates text) -> score (keywords 2 q) (toLowerCase u) = 0) ->
   findRelevantPassages_sentences text q m = firstn m text) /\
  (text = [] -> findRelevantPassages_sentences text q m = []).
Proof.
  split.
  - intros H. unfold findRelevantPassages_sentences. cbv zeta.
    rewrite append_loop_all_zero; [reflexivity|].
    intros it Hit.
    apply (Permutation_in _ (sort_desc_perm _)) in Hit.
    apply in_map_iff in Hit as [u [<- Hu]]. simpl.
    destruct H as [H|H]; [rewrite H; reflexivity|exact (H u Hu)].
  - intros ->. unfold findRelevantPassages_sentences, candidates. simpl.
    destruct m; reflexivity.
Qed.

Lemma sentence_mode_fallback_prefix_witness :
  findRelevantPassages_sentences corpus_two (lit "to be or") default_maxLength
    = firstn default_maxLength corpus_two /\
  findRelevantPassages_sentences [] (lit "to be or") default_maxLength = [].
Proof.
  split.
  - apply (proj1 (sentence_mode_fallback_prefix corpus_two (lit "to be or") default_maxLength)).
    left; vm_compute; reflexivity.
  - apply (proj2 (sentence_mode_fallback_prefix [] (lit "to be or") default_maxLength)).
    reflexivity.
Defined.

(** Counterexample to C3 as stated: for the empty question over a corpus of
    8001 characters the result is neither the empty string nor the whole
    corpus but its first 8000 characters. *)
Lemma sentence_mode_fallback_counterexample :
  keywords 2 [] = [] /\
  findRelevantPassages_sentences big_a [] default_maxLength = repeat "a"%char 8000 /\
  findRelevantPassages_sentences big_a [] default_maxLength <> [] /\
  findRelevantPassages_sentences big_a [] default_maxLength <> big_a.
Proof.
  assert (E : findRelevantPassages_sentences big_a [] default_maxLength = repeat "a"%char 8000)
    by (vm_compute; reflexivity).
  split; [reflexivity|split; [exact E|split]]; rewrite E.
  - intros H. apply (f_equal (@length ascii)) in H.
    rewrite repeat_length in H. discriminate.
  - unfold big_a. intros H. apply (f_equal (@length ascii)) in H.
    rewrite !repeat_length in H. discriminate.
Qed.

(** C4 *)
(** Claim C4 (as amended): in line mode, when no line of the corpus has a
    positive score and more than 20 characters after trimming, the ranker
    returns the empty string (there is no corpus fallback); the joined
    matching lines are returned unmodified, with no ellipsis marker, whenever
    they are at most 1500 characters long. *)
Theorem line_mode_no_match_empty (q corpus : str) :
  ((forall line, In line (split_char NL corpus) ->
      score (keywords 3 q) (toLowerCase line) = 0 \/ length (trim line) <= 20) ->
   findRelevantPassages_lines q corpus = []) /\
  (length (join [NL] (collect_lines (keywords 3 q) (split_char NL corpus))) <= 1500 ->
   findRelevantPassages_lines q corpus
     = join [NL] (collect_lines (keywords 3 q) (split_char NL corpus))).
Proof.
  split.
  - intros H. unfold findRelevantPassages_lines. cbv zeta.
    rewrite (collect_lines_none _ _ H). reflexivity.
  - intros H. unfold findRelevantPassages_lines. cbv zeta.
    apply Nat.ltb_ge in H. rewrite H. reflexivity.
Qed.

Lemma line_mode_no_match_empty_witness :
  findRelevantPassages_lines q_none corpus_short = [] /\
  findRelevantPassages_lines (lit "What does Hamlet say about death?")
    (lit "HAMLET: To be or not to be, that is the question")
    = lit "HAMLET: To be or not to be, that is the question".
Proof.
  split.
  - apply (proj1 (line_mode_no_match_empty q_none corpus_short)).
    intros line Hl. left. vm_compute in Hl.
    destruct Hl as [<-|[]]. vm_compute. reflexivity.
  - rewrite (proj2 (line_mode_no_match_empty (lit "What does Hamlet say about death?")
      (lit "HAMLET: To be or not to be, that is the question")) ltac:(vm_compute; lia)).
    vm_compute. reflexivity.
Defined.

(** Counterexample to C4 as stated: a corpus shorter than 1500 characters
    with no scoring line yields the empty string, not the corpus. *)
Lemma line_mode_fallback_counterexample :
  length corpus_short < 1500 /\
  findRelevantPassages_lines q_none corpus_short = [] /\
  firstn 1500 corpus_short <> [].
Proof. split; [vm_compute; lia|split; [vm_compute; reflexivity|discriminate]]. Qed.

(** C5 *)
(** Claim C5 (as amended): in sentence mode the loop walks the sorted units
    once.  When it reaches a unit with positive score such that the length of
    the result built so far plus the unit's length is below [maxLength], the
    unit (trimmed, followed by ". ") is appended right there; any other unit
    is skipped, and the loop goes on with the later units from the same
    result.  The result is the concatenation of whole units in sorted order
    and is shorter than [maxLength + 2]. *)
Theorem sentence_mode_whole_units_skip (text q : str) (m : nat) :
  let sorted := sort_desc (map (score_sentence (keywords 2 q)) (candidates text)) in
  (exists sel, subseq sel sorted /\ Forall (fun it => 0 < sc it) sel /\
     append_loop m sorted [] = emit sel) /\
  length (append_loop m sorted []) < m + 2 /\
  (forall pre it post, sorted = pre ++ it :: post ->
     (0 < sc it -> length (append_loop m pre []) + length (sentence it) < m ->
        exists t, append_loop m sorted [] = append_loop m pre [] ++ sentence it ++ lit ". " ++ t) /\
     (~ (0 < sc it /\ length (append_loop m pre []) + length (sentence it) < m) ->
        append_loop m sorted [] = append_loop m post (append_loop m pre []))).
Proof.
  intros sorted. split; [|split].
  - destruct (append_loop_selects m sorted []) as [sel [Hs [Hp He]]].
    exists sel; split; [exact Hs|split; [exact Hp|exact He]].
  - apply append_loop_length. simpl. lia.
  - intros pre it post Hs. rewrite Hs, append_loop_app. cbn [append_loop]. split.
    + intros H1 H2. apply Nat.ltb_lt in H1, H2. rewrite H1, H2. cbn [andb].
      destruct (append_loop_extends m post
                  (append_loop m pre [] ++ sentence it ++ lit ". ")) as [t Ht].
      exists t. rewrite Ht, <- !app_assoc. reflexivity.
    + intros Hn.
      destruct (0 <? sc it) eqn:E1; [|reflexivity].
      destruct (length (append_loop m pre []) + length (sentence it) <? m) eqn:E2; [|reflexivity].
      exfalso. apply Hn. apply Nat.ltb_lt in E1, E2. split; assumption.
Qed.

Lemma sentence_mode_whole_units_skip_witness :
  append_loop default_maxLength
    (sort_desc (map (score_sentence (keywords 2 q_three)) (candidates corpus_long_first))) []
  = append_loop default_maxLength [score_sentence (keywords 2 q_three) short_one_kw]
      (append_loop default_maxLength [] []) /\
  exists t, append_loop default_maxLength
    (sort_desc (map (score_sentence (keywords 2 q_three)) (candidates corpus_long_first))) []
  = append_loop default_maxLength [score_sentence (keywords 2 q_three) long_two_kw] []
    ++ sentence (score_sentence (keywords 2 q_three) short_one_kw) ++ lit ". " ++ t.
Proof.
  split.
  - apply (proj2 (proj2 (proj2 (sentence_mode_whole_units_skip corpus_long_first q_three default_maxLength))
      [] (score_sentence (keywords 2 q_three) long_two_kw)
      [score_sentence (keywords 2 q_three) short_one_kw] ltac:(vm_compute; reflexivity))).
    intros [_ H]. apply Nat.ltb_lt in H. vm_compute in H. discriminate.
  - apply (proj1 (proj2 (proj2 (sentence_mode_whole_units_skip corpus_long_first q_three default_maxLength))
      [score_sentence (keywords 2 q_three) long_two_kw] (score_sentence (keywords 2 q_three) short_one_kw)
      [] ltac:(vm_compute; reflexivity))).
    + apply Nat.ltb_lt. vm_compute. reflexivity.
    + apply Nat.ltb_lt. vm_compute. reflexivity.
Defined.

(** Counterexample to C5 as stated: the first sorted unit does not fit and is
    skipped, and the next one is appended after it. *)
Lemma sentence_mode_no_stop_counterexample :
  sort_desc (map (score_sentence (keywords 2 q_three)) (candidates corpus_long_first))
    = [score_sentence (keywords 2 q_three) long_two_kw;
       score_sentence (keywords 2 q_three) short_one_kw] /\
  0 < sc (score_sentence (keywords 2 q_three) long_two_kw) /\
  default_maxLength <= length (sentence (score_sentence (keywords 2 q_three) long_two_kw)) /\
  findRelevantPassages_sentences corpus_long_first q_three default_maxLength
    = short_one_kw ++ lit ". ".
Proof.
  repeat match goal with |- _ /\ _ => split end; vm_compute; try reflexivity; lia.
Qed.

(** C10 *)
(** Claim C10: the question is split on spaces only and keeps punctuation; a
    keyword holding one of [.!?] is never a substring of a lower-cased
    sentence piece of [text.split(/[.!?]+/)], so it adds 0 to every score;
    the last token of a question ending in '?' ends in '?' and never matches. *)
Theorem terminator_keywords_never_score (thr : nat) (q text : str) :
  (forall u, In u (split_terms text) ->
     score (keywords thr q) (toLowerCase u)
     = score (filter (fun k => negb (has_term k)) (keywords thr q)) (toLowerCase u)) /\
  (forall u k, In u (split_terms text) -> In k (keywords thr q) -> has_term k = true ->
     includes (toLowerCase u) k = false) /\
  (forall q0, q = q0 ++ ["?"%char] ->
     exists w, last (split_char SP (toLowerCase q)) [] = w ++ ["?"%char] /\
       forall u, In u (split_terms text) -> includes (toLowerCase u) (w ++ ["?"%char]) = false).
Proof.
  split; [|split].
  - intros u Hu. apply (score_drop_term_keywords text u), Hu.
  - intros u k Hu _ Hk. apply (term_keyword_never_matches text u k Hu).
    unfold has_term in Hk; apply existsb_exists in Hk; exact Hk.
  - intros q0 ->. rewrite toLowerCase_app.
    destruct (split_char_go_last SP (to_lower_char "?"%char) (toLowerCase q0) []
                ltac:(discriminate)) as [w Hw].
    exists w. split; [exact Hw|].
    intros u Hu. apply (term_keyword_never_matches text u _ Hu).
    exists "?"%char. split; [apply in_or_app; right; left; reflexivity|reflexivity].
Qed.

Lemma terminator_keywords_never_score_witness :
  exists w, last (split_char SP (toLowerCase (lit "What does Hamlet say about death?"))) [] = w ++ ["?"%char] /\
    forall u, In u (split_terms corpus_two) -> includes (toLowerCase u) (w ++ ["?"%char]) = false.
Proof.
  exact (proj2 (proj2 (terminator_keywords_never_score 2 (lit "What does Hamlet say about death?") corpus_two))
           (lit "What does Hamlet say about death") eq_refl).
Defined.

End RankerClaims.

Module HandlerClaims.
Import Text Ranker Handlers.

Definition answer_200 (r : response) : Prop :=
  exists a rest, r = Json 200 (("answer"%string, JStr a) :: rest).

Definition error_500 (r : response) : Prop :=
  exists e rest, r = Json 500 (("error"%string, JStr e) :: rest).

Definition falsy_question (body : json) : Prop :=
  forall q, get_question body = Some (Val q) -> truthy q = false.

Definition truthy_question (body : json) (q : json) : Prop :=
  get_question body = Some (Val q) /\ truthy q = true.

Lemma get_question_none (body : json) : get_question body = None -> body = JNull.
Proof. destruct body; simpl; congruence. Qed.

Ltac split_question body G q :=
  unfold ask_POST, gemini_POST, demo_POST;
  destruct (get_question body) as [[|q]|] eqn:G.

Lemma ask_no_question (env : vector_env) (body : json) :
  body <> JNull -> falsy_question body -> ask_POST env body = (no_question, []).
Proof.
  intros Hn Hf. split_question body G q.
  - reflexivity.
  - rewrite (Hf q G). reflexivity.
  - apply get_question_none in G; contradiction.
Qed.

Lemma gemini_no_question (env : gemini_env) (body : json) :
  body <> JNull -> falsy_question body -> gemini_POST env body = (no_question, []).
Proof.
  intros Hn Hf. split_question body G q.
  - reflexivity.
  - rewrite (Hf q G). reflexivity.
  - apply get_question_none in G; contradiction.
Qed.

Lemma demo_no_question (mitData : option str) (body : json) :
  body <> JNull -> falsy_question body -> demo_POST mitData body = (no_question, []).
Proof.
  intros Hn Hf. split_question body G q.
  - reflexivity.
  - rewrite (Hf q G). reflexivity.
  - apply get_question_none in G; contradiction.
Qed.

Lemma ask_shape (env : vector_env) (body : json) :
  let r := fst (ask_POST env body) in
  (r = Thrown /\ body = JNull) \/ r = no_question \/ answer_200 r \/ error_500 r.
Proof.
  split_question body G q; simpl.
  - right; left; reflexivity.
  - destruct (truthy q); simpl; [|right; left; reflexivity].
    destruct (vs_store env); [|do 3 right; do 2 eexists; reflexivity].
    destruct (vs_search env q); [|do 3 right; do 2 eexists; reflexivity].
    destruct (vs_generate env _ q); [do 2 right; left|do 3 right]; do 2 eexists; reflexivity.
  - left; split; [reflexivity|apply get_question_none, G].
Qed.

Lemma gemini_shape (env : gemini_env) (body : json) :
  let r := fst (gemini_POST env body) in
  (r = Thrown /\ body = JNull) \/ r = no_question \/ answer_200 r \/ error_500 r.
Proof.
  split_question body G q; simpl.
  - right; left; reflexivity.
  - destruct (truthy q); simpl; [|right; left; reflexivity].
    destruct (gm_data env) as [|c t]; [do 3 right; do 2 eexists; reflexivity|].
    destruct q; try (do 3 right; do 2 eexists; reflexivity).
    destruct (gm_generate env _); [do 2 right; left|do 3 right]; do 2 eexists; reflexivity.
  - left; split; [reflexivity|apply get_question_none, G].
Qed.

Lemma demo_shape (mitData : option str) (body : json) :
  let r := fst (demo_POST mitData body) in
  (r = Thrown /\ body = JNull) \/ r = no_question \/ answer_200 r \/ error_500 r.
Proof.
  split_question body G q; simpl.
  - right; left; reflexivity.
  - destruct (truthy q); simpl; [|right; left; reflexivity].
    destruct mitData as [[|c t]|], q;
      first [do 2 right; left; do 2 eexists; reflexivity
            |do 3 right; do 2 eexists; reflexivity].
  - left; split; [reflexivity|apply get_question_none, G].
Qed.

Lemma status_200_answer (r : response) (fs : list (string * json)) :
  (exists b, (r = Thrown /\ b = JNull)) \/ r = no_question \/ answer_200 r \/ error_500 r ->
  r = Json 200 fs -> answer_200 r.
Proof.
  intros [[b [-> _]]|[->|[H|[e [rest ->]]]]] E; try discriminate; exact H.
Qed.

Definition body_hamlet : json := JObj [("question"%string, JStr (lit "Who is Hamlet?"))].

Definition env_no_store : vector_env :=
  {| vs_store := Err (lit "Shakespeare data not found. Please run the ingestion process first by calling POST /api/ingest");
     vs_search := fun _ => Ok [];
     vs_generate := fun _ _ => Ok (lit "An answer.") |}.

Definition gemini_env_quota : gemini_env :=
  {| gm_data := lit "To be, or not to be: that is the question.";
     gm_generate := fun _ => Err (lit "quota exceeded") |}.

(** C9 *)
(** Claim C9 (as amended): for any JSON body other than [null] whose
    [question] is missing or falsy, the three handlers answer 400 with an
    error string and perform no downstream work; a 200 response carries an
    answer string; in ask/route.ts every failure of the vector store, search
    or model, and in ask-gemini/route.ts an empty corpus or a model failure,
    gives 500 with an error string; the demo handler of part_001 answers 200
    from its built-in knowledge when the corpus file is unavailable. *)
Theorem handlers_status_contract :
  (forall body, body <> JNull -> falsy_question body ->
     (forall env, ask_POST env body = (no_question, [])) /\
     (forall env, gemini_POST env body = (no_question, [])) /\
     (forall d, demo_POST d body = (no_question, []))) /\
  (forall env body fs, fst (ask_POST env body) = Json 200 fs -> answer_200 (Json 200 fs)) /\
  (forall env body fs, fst (gemini_POST env body) = Json 200 fs -> answer_200 (Json 200 fs)) /\
  (forall d body fs, fst (demo_POST d body) = Json 200 fs -> answer_200 (Json 200 fs)) /\
  (forall env body q m, truthy_question body q ->
     (vs_store env = Err m \/ vs_search env q = Err m \/ (forall ctx, vs_generate env ctx q = Err m)) ->
     error_500 (fst (ask_POST env body))) /\
  (forall env body q, truthy_question body q ->
     (gm_data env = [] \/ ((forall p, exists m, gm_generate env p = Err m) /\ exists s, q = JStr s)) ->
     error_500 (fst (gemini_POST env body))) /\
  (forall d body s, truthy_question body (JStr s) -> (d = None \/ d = Some []) ->
     answer_200 (fst (demo_POST d body))).
Proof.
  split; [|split; [|split; [|split; [|split; [|split]]]]].
  - intros body Hn Hf. split; [|split]; intros e.
    + apply ask_no_question; assumption.
    + apply gemini_no_question; assumption.
    + apply demo_no_question; assumption.
  - intros env body fs E. rewrite <- E. apply (status_200_answer _ fs); [|exact E].
    destruct (ask_shape env body) as [[H1 H2]|H]; [left; exists body; split; assumption|right; exact H].
  - intros env body fs E. rewrite <- E. apply (status_200_answer _ fs); [|exact E].
    destruct (gemini_shape env body) as [[H1 H2]|H]; [left; exists body; split; assumption|right; exact H].
  - intros d body fs E. rewrite <- E. apply (status_200_answer _ fs); [|exact E].
    destruct (demo_shape d body) as [[H1 H2]|H]; [left; exists body; split; assumption|right; exact H].
  - intros env body q m [G T] Hf. unfold ask_POST. rewrite G, T. simpl.
    destruct (vs_store env) eqn:S; [|do 2 eexists; reflexivity].
    destruct Hf as [Hf|[Hf|Hf]]; [congruence| |].
    + rewrite Hf. do 2 eexists; reflexivity.
    + destruct (vs_search env q); [rewrite Hf|]; do 2 eexists; reflexivity.
  - intros env body q [G T] Hf. unfold gemini_POST. rewrite G, T. simpl.
    destruct Hf as [Hf|[Hg [s ->]]]; [rewrite Hf; do 2 eexists; reflexivity|].
    destruct (gm_data env) as [|c t]; [do 2 eexists; reflexivity|].
    destruct (Hg (gemini_prompt (findRelevantPassages_sentences (c :: t) s default_maxLength) s)) as [m Hm].
    rewrite Hm. do 2 eexists; reflexivity.
  - intros d body s [G T] Hd. unfold demo_POST. rewrite G, T. simpl.
    destruct Hd as [->| ->]; do 2 eexists; reflexivity.
Qed.

Lemma handlers_status_contract_witness :
  ask_POST env_no_store (JObj []) = (no_question, []) /\
  error_500 (fst (ask_POST env_no_store body_hamlet)) /\
  error_500 (fst (gemini_POST gemini_env_quota body_hamlet)) /\
  answer_200 (fst (demo_POST None body_hamlet)).
Proof.
  destruct handlers_status_contract as [H400 [_ [_ [_ [Hask [Hgem Hdemo]]]]]].
  split; [|split; [|split]].
  - apply (proj1 (H400 (JObj []) ltac:(discriminate)
      ltac:(intros q G; discriminate G)) env_no_store).
  - apply (Hask env_no_store body_hamlet (JStr (lit "Who is Hamlet?"))
      (lit "Shakespeare data not found. Please run the ingestion process first by calling POST /api/ingest")).
    + split; reflexivity.
    + left; reflexivity.
  - apply (Hgem gemini_env_quota body_hamlet (JStr (lit "Who is Hamlet?"))).
    + split; reflexivity.
    + right; split; [intros p; eexists; reflexivity|eexists; reflexivity].
  - apply (Hdemo None body_hamlet (lit "Who is Hamlet?")); [split; reflexivity|left; reflexivity].
Defined.

(** Counterexample to C9 as stated: with the corpus file unavailable the demo
    handler answers 200, not 500; and a [null] body makes the destructuring
    throw instead of answering 400. *)
Lemma handlers_status_counterexample :
  answer_200 (fst (demo_POST None body_hamlet)) /\
  (forall fs, fst (demo_POST None body_hamlet) <> Json 500 fs) /\
  fst (ask_POST env_no_store JNull) = Thrown /\
  fst (gemini_POST gemini_env_quota JNull) = Thrown /\
  fst (demo_POST None JNull) = Thrown.
Proof.
  split; [do 2 eexists; reflexivity|].
  split; [intros fs; simpl; discriminate|].
  repeat split.
Qed.

End HandlerClaims.

(** ** Facts about the global replace and the loader *)
Module LoaderFacts.
Import Text Loader.

Lemma replace_fuel_nil (f : nat) (m : matcher) : replace_fuel f m [] = [].
Proof. destruct f; reflexivity. Qed.

(** A regex that matches at no position leaves the text unchanged. *)
Lemma replace_fuel_no_match (m : matcher) (s : str) (f : nat) :
  length s <= f -> (forall k, m (skipn k s) = None) -> replace_fuel f m s = s.
Proof.
  revert f; induction s as [|c s IH]; intros f Hf Hm; [apply replace_fuel_nil|].
  destruct f as [|f]; [simpl in Hf; lia|]. simpl.
  pose proof (Hm 0) as H0; simpl in H0. rewrite H0. f_equal. apply IH; [simpl in Hf; lia|].
  intros k. exact (Hm (S k)).
Qed.

Lemma replace_all_no_match (m : matcher) (s : str) :
  (forall k, m (skipn k s) = None) -> replace_all m s = s.
Proof. intros H; apply replace_fuel_no_match; [lia|exact H]. Qed.

Lemma prefixb_skipn_includes (s p : str) (k : nat) :
  includes s p = false -> prefixb p (skipn k s) = false.
Proof.
  revert k; induction s as [|c s IH]; intros k H; simpl in H.
  - rewrite orb_false_r in H. destruct k; exact H.
  - apply orb_false_iff in H as [H1 H2]. destruct k; [exact H1|apply IH, H2].
Qed.

Lemma m_delimited_none (op cl s : str) (k : nat) :
  includes s op = false -> m_delimited op cl (skipn k s) = None.
Proof.
  intros H. unfold m_delimited. rewrite (prefixb_skipn_includes s op k H). reflexivity.
Qed.

Lemma in_skipn_in (c : ascii) (s : str) (k : nat) : In c (skipn k s) -> In c s.
Proof.
  revert k; induction s as [|d s IH]; intros k H; destruct k; simpl in *; try contradiction.
  - exact H.
  - right; exact (IH k H).
Qed.

Lemma forallb_skipn_head (P : ascii -> bool) (s : str) (k : nat) (c : ascii) (rest : str) :
  forallb P s = true -> skipn k s = c :: rest -> P c = true.
Proof.
  intros H E. rewrite forallb_forall in H. apply H, (in_skipn_in c s k).
  rewrite E; left; reflexivity.
Qed.

(** Whitespace of a text: single spaces only. *)
Definition only_spaces (c : ascii) : bool := negb (is_space c) || Ascii.eqb c SP.

Lemma only_spaces_space (c : ascii) : only_spaces c = true -> is_space c = true -> c = SP.
Proof.
  unfold only_spaces. intros H Hs. rewrite Hs in H. simpl in H. apply Ascii.eqb_eq, H.
Qed.

Lemma head_not_special (s : str) (k : nat) :
  forallb only_spaces s = true ->
  forall c rest, skipn k s = c :: rest -> Ascii.eqb c CR = false /\ Ascii.eqb c NL = false.
Proof.
  intros H c rest E. pose proof (forallb_skipn_head _ _ _ _ _ H E) as Hc.
  unfold only_spaces in Hc.
  destruct (Ascii.eqb c CR) eqn:ECR.
  - apply Ascii.eqb_eq in ECR; subst c. discriminate.
  - destruct (Ascii.eqb c NL) eqn:ENL; [|split; reflexivity].
    apply Ascii.eqb_eq in ENL; subst c. discriminate.
Qed.

Lemma replace_spaces_single (s : str) (f : nat) :
  length s <= f -> forallb only_spaces s = true -> includes s [SP; SP] = false ->
  replace_fuel f m_spaces s = s.
Proof.
  revert f; induction s as [|c s IH]; intros f Hf Ho Hd; [apply replace_fuel_nil|].
  destruct f as [|f]; [simpl in Hf; lia|].
  simpl in Ho; apply andb_true_iff in Ho as [Hc Ho].
  simpl in Hd; apply orb_false_iff in Hd as [Hp Hd].
  simpl. destruct (is_space c) eqn:Hs.
  - apply (only_spaces_space c Hc) in Hs; subst c.
    assert (Hdrop : drop_spaces s = s).
    { destruct s as [|d s]; [reflexivity|]. simpl.
      destruct (is_space d) eqn:Hsd; [|reflexivity].
      simpl in Ho; apply andb_true_iff in Ho as [Hd' _].
      apply (only_spaces_space d Hd') in Hsd; subst d. discriminate. }
    rewrite Hdrop. simpl. f_equal. apply IH; [simpl in Hf; lia|exact Ho|exact Hd].
  - f_equal. apply IH; [simpl in Hf; lia|exact Ho|exact Hd].
Qed.

Lemma indexOf_go_spec (s pat : str) (k i : nat) :
  indexOf_go s pat k = Some i -> k <= i /\ prefixb pat (skipn (i - k) s) = true.
Proof.
  revert k; induction s as [|c s IH]; intros k H; simpl in H.
  - destruct (prefixb pat []) eqn:E; [|discriminate].
    injection H as <-. rewrite Nat.sub_diag. split; [lia|exact E].
  - destruct (prefixb pat (c :: s)) eqn:E.
    + injection H as <-. rewrite Nat.sub_diag. split; [lia|exact E].
    + destruct (IH (S k) H) as [Hk Hp]. split; [lia|].
      replace (i - k) with (S (i - S k)) by lia. exact Hp.
Qed.

Lemma indexOf_spec (s pat : str) (i : nat) :
  indexOf s pat = Some i -> prefixb pat (skipn i s) = true.
Proof.
  intros H. destruct (indexOf_go_spec s pat 0 i H) as [_ Hp].
  rewrite Nat.sub_0_r in Hp. exact Hp.
Qed.

Lemma first_marker_index_spec (text : str) (ms : list str) (i : nat) :
  first_marker_index text ms = Some i -> exists mk, In mk ms /\ indexOf text mk = Some i.
Proof.
  induction ms as [|mk ms IH]; simpl; [discriminate|].
  destruct (indexOf text mk) eqn:E.
  - intros H; injection H as <-. exists mk; split; [left; reflexivity|exact E].
  - intros H. destruct (IH H) as [mk' [Hin Hi]]. exists mk'; split; [right; exact Hin|exact Hi].
Qed.

Lemma startIndex_spec (text : str) (i : nat) :
  startIndex text = Some i ->
  exists mk, In mk (startMarkers ++ playMarkers) /\ indexOf text mk = Some i /\
    prefixb mk (skipn i text) = true.
Proof.
  unfold startIndex. destruct (first_marker_index text startMarkers) eqn:E.
  - intros H; injection H as <-.
    destruct (first_marker_index_spec _ _ _ E) as [mk [Hin Hi]].
    exists mk. split; [apply in_or_app; left; exact Hin|split; [exact Hi|apply indexOf_spec, Hi]].
  - intros H. destruct (first_marker_index_spec _ _ _ H) as [mk [Hin Hi]].
    exists mk. split; [apply in_or_app; right; exact Hin|split; [exact Hi|apply indexOf_spec, Hi]].
Qed.

Lemma indexOf_go_none (s pat : str) (k : nat) :
  indexOf_go s pat k = None <-> includes s pat = false.
Proof.
  revert k; induction s as [|c s IH]; intros k; simpl.
  - destruct (prefixb pat []); split; intros H; try discriminate; reflexivity.
  - destruct (prefixb pat (c :: s)); simpl; [split; intros H; discriminate|apply IH].
Qed.

Lemma indexOf_go_first (s pat : str) (k i : nat) :
  indexOf_go s pat k = Some i ->
  k <= i /\ prefixb pat (skipn (i - k) s) = true /\
  forall j, j < i - k -> prefixb pat (skipn j s) = false.
Proof.
  revert k; induction s as [|c s IH]; intros k H; simpl in H.
  - destruct (prefixb pat []) eqn:E; [|discriminate].
    injection H as <-. rewrite Nat.sub_diag. split; [lia|split; [exact E|intros j Hj; lia]].
  - destruct (prefixb pat (c :: s)) eqn:E.
    + injection H as <-. rewrite Nat.sub_diag. split; [lia|split; [exact E|intros j Hj; lia]].
    + destruct (IH (S k) H) as [Hk [Hp Hm]]. split; [lia|split].
      * replace (i - k) with (S (i - S k)) by lia. exact Hp.
      * intros [|j] Hj; [exact E|]. apply Hm. lia.
Qed.

Lemma first_marker_index_skip (text : str) (pre ms : list str) :
  (forall mk, In mk pre -> includes text mk = false) ->
  first_marker_index text (pre ++ ms) = first_marker_index text ms.
Proof.
  induction pre as [|mk pre IH]; intros H; [reflexivity|].
  cbn [app first_marker_index]. unfold indexOf.
  rewrite (proj2 (indexOf_go_none text mk 0) (H mk (or_introl eq_refl))).
  apply IH. intros m Hm. apply H. right. exact Hm.
Qed.

Lemma first_marker_index_hit (text mk : str) (pre post : list str) :
  (forall m, In m pre -> includes text m = false) -> includes text mk = true ->
  exists i, first_marker_index text (pre ++ mk :: post) = Some i /\
    prefixb mk (skipn i text) = true /\ (forall j, j < i -> prefixb mk (skipn j text) = false).
Proof.
  intros Hpre Hmk. rewrite (first_marker_index_skip text pre (mk :: post) Hpre).
  cbn [first_marker_index]. unfold indexOf.
  destruct (indexOf_go text mk 0) as [i|] eqn:E.
  - destruct (indexOf_go_first text mk 0 i E) as [_ [Hp Hm]].
    rewrite Nat.sub_0_r in Hp, Hm. exists i. split; [reflexivity|split; [exact Hp|exact Hm]].
  - apply indexOf_go_none in E. congruence.
Qed.

Lemma first_marker_index_miss (text : str) (ms : list str) :
  (forall m, In m ms -> includes text m = false) -> first_marker_index text ms = None.
Proof.
  intros H. rewrite <- (app_nil_r ms), (first_marker_index_skip text ms [] H). reflexivity.
Qed.

End LoaderFacts.

Module LoaderClaims.
Import Text Loader LoaderFacts.

Definition t_angles : str := lit "a <<x>> b".
Definition t_bracket_nl : str := lit "[a" ++ [NL] ++ lit "b] c".
Definition t_marker_nl : str := lit "xx THE" ++ [NL] ++ lit "SONNETS".
Definition t_hamlet : str := lit "HAMLET said hi x".
Definition raw_junk : str := lit "junk HAMLET is here".
Definition raw_sonnets_late : str := lit "HAMLET x THE SONNETS y".
Definition t_plain : str := lit "no marker here".

(** Claim C6 (as amended): normalisation is not idempotent in general, but a
    text whose only whitespace is single spaces, with none at either end,
    holding no '[', no '<<' and no 'THIS ELECTRONIC VERSION', and whose marker
    search finds nothing or finds the text's own start, is left unchanged. *)
Theorem normalize_fixpoint_single_spaced (t : str) :
  forallb only_spaces t = true -> includes t [SP; SP] = false -> trim t = t ->
  includes t (lit "[") = false -> includes t (lit "<<") = false ->
  includes t (lit "THIS ELECTRONIC VERSION") = false ->
  (startIndex t = None \/ startIndex t = Some 0) ->
  normalize t = t.
Proof.
  intros Ho Hd Ht Hb Ha Hn Hs.
  unfold normalize.
  assert (Hp : discard_prefix t = t)
    by (unfold discard_prefix; destruct Hs as [-> | ->]; reflexivity).
  rewrite Hp. unfold cleanup.
  rewrite (replace_all_no_match m_crlf t).
  2:{ intros k. destruct (skipn k t) as [|c [|d r]] eqn:E; try reflexivity.
      destruct (head_not_special t k Ho c (d :: r) E) as [H1 _]. simpl. rewrite H1. reflexivity. }
  rewrite (replace_all_no_match m_cr t).
  2:{ intros k. destruct (skipn k t) as [|c r] eqn:E; [reflexivity|].
      destruct (head_not_special t k Ho c r E) as [H1 _]. simpl. rewrite H1. reflexivity. }
  rewrite (replace_all_no_match (m_blank [NL; NL]) t).
  2:{ intros k. destruct (skipn k t) as [|c r] eqn:E; [reflexivity|].
      destruct (head_not_special t k Ho c r E) as [_ H2]. simpl. rewrite H2. reflexivity. }
  rewrite (replace_all_no_match m_brackets t) by (intros k; apply m_delimited_none, Hb).
  unfold replace_all at 3. rewrite (replace_spaces_single t (length t)); [|lia|exact Ho|exact Hd].
  rewrite (replace_all_no_match m_angles t) by (intros k; apply m_delimited_none, Ha).
  rewrite (replace_all_no_match m_notice t) by (intros k; apply m_delimited_none, Hn).
  exact Ht.
Qed.

Lemma normalize_fixpoint_single_spaced_witness : normalize t_hamlet = t_hamlet.
Proof.
  apply normalize_fixpoint_single_spaced; vm_compute; try reflexivity.
  right; reflexivity.
Defined.

(** Counterexample to C6 as stated: a second pass collapses the spaces left
    by a removed <<...>> annotation, removes a bracket pair joined by the
    whitespace collapse, and moves the start to a marker formed by it. *)
Lemma normalize_not_idempotent_counterexample :
  normalize t_angles = lit "a  b" /\ normalize (normalize t_angles) = lit "a b" /\
  normalize t_bracket_nl = lit "[a b] c" /\ normalize (normalize t_bracket_nl) = lit "c" /\
  normalize t_marker_nl = lit "xx THE SONNETS" /\
  normalize (normalize t_marker_nl) = lit "THE SONNETS".
Proof. repeat match goal with |- _ /\ _ => split end; vm_compute; reflexivity. Qed.

(** Claim C7 (as amended): the loader locates the start marker in the raw,
    uncleaned text: the first listed start marker that occurs, else the first
    listed play marker that occurs, at its first occurrence.  It keeps the
    text from that occurrence on (the whole text when no marker occurs), and
    only then applies the cleanups (line endings, blank lines, brackets,
    whitespace, <<...>>, the 'THIS ELECTRONIC VERSION ... PERMISSION.'
    notice) and the trim. *)
Theorem normalize_discards_prefix_first (raw : str) :
  (forall pre mk post, startMarkers = pre ++ mk :: post ->
     (forall m, In m pre -> includes raw m = false) -> includes raw mk = true ->
     exists i, prefixb mk (skipn i raw) = true /\
       (forall j, j < i -> prefixb mk (skipn j raw) = false) /\
       normalize raw = cleanup (skipn i raw)) /\
  (forall pre mk post, (forall m, In m startMarkers -> includes raw m = false) ->
     playMarkers = pre ++ mk :: post ->
     (forall m, In m pre -> includes raw m = false) -> includes raw mk = true ->
     exists i, prefixb mk (skipn i raw) = true /\
       (forall j, j < i -> prefixb mk (skipn j raw) = false) /\
       normalize raw = cleanup (skipn i raw)) /\
  ((forall m, In m (startMarkers ++ playMarkers) -> includes raw m = false) ->
   normalize raw = cleanup raw).
Proof.
  unfold normalize, discard_prefix, startIndex. split; [|split].
  - intros pre mk post Hs Hpre Hmk. rewrite Hs.
    destruct (first_marker_index_hit raw mk pre post Hpre Hmk) as [i [Hi [Hp Hm]]].
    rewrite Hi. exists i. split; [exact Hp|split; [exact Hm|reflexivity]].
  - intros pre mk post Hst Hs Hpre Hmk.
    rewrite (first_marker_index_miss raw startMarkers Hst), Hs.
    destruct (first_marker_index_hit raw mk pre post Hpre Hmk) as [i [Hi [Hp Hm]]].
    rewrite Hi. exists i. split; [exact Hp|split; [exact Hm|reflexivity]].
  - intros H.
    rewrite (first_marker_index_miss raw startMarkers)
      by (intros m Hm; apply H, in_or_app; left; exact Hm).
    rewrite (first_marker_index_miss raw playMarkers)
      by (intros m Hm; apply H, in_or_app; right; exact Hm).
    reflexivity.
Qed.

Lemma normalize_discards_prefix_first_witness :
  (exists i, prefixb (lit "THE SONNETS") (skipn i raw_sonnets_late) = true /\
     (forall j, j < i -> prefixb (lit "THE SONNETS") (skipn j raw_sonnets_late) = false) /\
     normalize raw_sonnets_late = cleanup (skipn i raw_sonnets_late)) /\
  (exists i, prefixb (lit "HAMLET") (skipn i raw_junk) = true /\
     (forall j, j < i -> prefixb (lit "HAMLET") (skipn j raw_junk) = false) /\
     normalize raw_junk = cleanup (skipn i raw_junk)) /\
  normalize t_plain = cleanup t_plain.
Proof.
  split; [|split].
  - apply (proj1 (normalize_discards_prefix_first raw_sonnets_late)
             [lit "THE COMPLETE WORKS OF WILLIAM SHAKESPEARE"] (lit "THE SONNETS")
             (skipn 2 startMarkers)).
    + vm_compute. reflexivity.
    + intros m [<-|[]]. vm_compute. reflexivity.
    + vm_compute. reflexivity.
  - apply (proj1 (proj2 (normalize_discards_prefix_first raw_junk)) [] (lit "HAMLET")
             (skipn 1 playMarkers)).
    + intros m Hm. vm_compute in Hm.
      repeat (destruct Hm as [<-|Hm]; [vm_compute; reflexivity|]). destruct Hm.
    + vm_compute. reflexivity.
    + intros m [].
    + vm_compute. reflexivity.
  - apply (proj2 (proj2 (normalize_discards_prefix_first t_plain))).
    intros m Hm. vm_compute in Hm.
    repeat (destruct Hm as [<-|Hm]; [vm_compute; reflexivity|]). destruct Hm.
Defined.

(** Counterexample to C7 as stated: a marker split by a line break in the raw
    text is not found before the cleanup, so the loader keeps the prefix that
    the spec's order (marker discard last) removes. *)
Lemma normalize_order_counterexample :
  normalize t_marker_nl = lit "xx THE SONNETS" /\
  spec_normalize t_marker_nl = lit "THE SONNETS".
Proof. split; vm_compute; reflexivity. Qed.

End LoaderClaims.

Module ChunkerFacts.
Import Text Loader Chunker LoaderFacts.

(** No character of [s] is a line terminator. *)
Definition no_line_term (s : str) : Prop := forall c, In c s -> is_line_term c = false.

Lemma line_term_is_space (c : ascii) : is_space c = false -> is_line_term c = false.
Proof.
  intros H. destruct (is_line_term c) eqn:E; [|reflexivity].
  unfold is_line_term in E. apply orb_true_iff in E as [E|E]; apply Ascii.eqb_eq in E;
    subst c; discriminate H.
Qed.

Lemma in_drop_spaces (c : ascii) (s : str) : In c (drop_spaces s) -> In c s.
Proof.
  induction s as [|d s IH]; simpl; [tauto|].
  destruct (is_space d); [intros H; right; apply IH, H|tauto].
Qed.

Lemma drop_spaces_length (s : str) : length (drop_spaces s) <= length s.
Proof.
  induction s as [|d s IH]; simpl; [lia|]. destruct (is_space d); simpl; lia.
Qed.

Lemma in_drop_trailing_spaces (c : ascii) (s : str) :
  In c (drop_trailing_spaces s) -> In c s.
Proof.
  induction s as [|d s IH]; simpl; [tauto|].
  destruct (drop_trailing_spaces s) as [|x r] eqn:E.
  - destruct (is_space d); simpl; tauto.
  - intros [H|H]; [left; exact H|right; apply IH, H].
Qed.

Lemma in_trim (c : ascii) (s : str) : In c (trim s) -> In c s.
Proof. intros H. apply in_drop_spaces, in_drop_trailing_spaces, H. Qed.

Lemma lazy_until_in (close s rest : str) (c : ascii) :
  lazy_until close s = Some rest -> In c rest -> In c s.
Proof.
  induction s as [|d s IH]; intros H Hc; simpl in H.
  - destruct (prefixb close []); [|discriminate].
    injection H as <-. apply (in_skipn_in c [] (length close)), Hc.
  - destruct (prefixb close (d :: s)).
    + injection H as <-. apply (in_skipn_in c (d :: s) (length close)), Hc.
    + destruct (is_line_term d); [discriminate|]. right; apply IH; assumption.
Qed.

(** A global replace keeps a property of the characters when each match
    produces such characters and resumes inside the text. *)
Lemma replace_fuel_keeps (P : ascii -> Prop) (m : matcher) :
  (forall s r rest, m s = Some (r, rest) ->
     (forall c, In c r -> P c) /\ (forall c, In c rest -> In c s)) ->
  forall f s, (forall c, In c s -> P c) -> forall c, In c (replace_fuel f m s) -> P c.
Proof.
  intros Hm f. induction f as [|f IH]; intros s Hs c Hc; [apply Hs, Hc|].
  destruct s as [|d s]; [contradiction|]. simpl in Hc.
  destruct (m (d :: s)) as [[r rest]|] eqn:E.
  - destruct (Hm _ _ _ E) as [Hr Hrest].
    apply in_app_or in Hc as [Hc|Hc]; [apply Hr, Hc|].
    apply (IH rest); [intros x Hx; apply Hs, Hrest, Hx|exact Hc].
  - destruct Hc as [Hc|Hc]; [subst; apply Hs; left; reflexivity|].
    apply (IH s); [intros x Hx; apply Hs; right; exact Hx|exact Hc].
Qed.

Lemma m_delimited_keeps (op cl s r rest : str) :
  m_delimited op cl s = Some (r, rest) ->
  (forall c, In c r -> is_line_term c = false) /\ (forall c, In c rest -> In c s).
Proof.
  unfold m_delimited. destruct (prefixb op s); [|discriminate].
  destruct (lazy_until cl (skipn (length op) s)) as [x|] eqn:E; [|discriminate].
  intros H; injection H as <- <-. split; [intros c []|].
  intros c Hc. apply (in_skipn_in c s (length op)), (lazy_until_in cl _ x c E Hc).
Qed.

(** [/\s+/g -> ' '] leaves no line terminator. *)
Lemma replace_spaces_no_line_term (f : nat) (s : str) :
  length s <= f -> no_line_term (replace_fuel f m_spaces s).
Proof.
  revert s; induction f as [|f IH]; intros s Hf c Hc.
  - destruct s; [contradiction|simpl in Hf; lia].
  - destruct s as [|d s]; [contradiction|]. simpl in Hc, Hf.
    destruct (is_space d) eqn:E.
    + destruct Hc as [Hc|Hc]; [subst; reflexivity|].
      apply (IH (drop_spaces s)); [pose proof (drop_spaces_length s); lia|exact Hc].
    + destruct Hc as [Hc|Hc]; [subst; apply line_term_is_space, E|].
      apply (IH s); [lia|exact Hc].
Qed.

Lemma m_blank_no_line_term (repl s : str) :
  no_line_term s -> replace_all (m_blank repl) s = s.
Proof.
  intros H. apply replace_all_no_match. intros k.
  destruct (skipn k s) as [|c r] eqn:E; [reflexivity|].
  assert (Hc : is_line_term c = false)
    by (apply H, (in_skipn_in c s k); rewrite E; left; reflexivity).
  unfold is_line_term in Hc. apply orb_false_iff in Hc as [Hc _].
  simpl. rewrite Hc. reflexivity.
Qed.

(** The cleaned play text holds no line terminator. *)
Lemma clean_play_text_no_line_term (text : str) : no_line_term (clean_play_text text).
Proof.
  unfold clean_play_text.
  assert (H1 : no_line_term (replace_all m_spaces text))
    by (apply replace_spaces_no_line_term; lia).
  assert (H2 : no_line_term (replace_all m_brackets (replace_all m_spaces text))).
  { unfold replace_all at 1. intros c.
    apply (replace_fuel_keeps (fun c => is_line_term c = false) m_brackets);
      [intros s r rest E; apply (m_delimited_keeps _ _ _ _ _ E)|exact H1]. }
  rewrite (m_blank_no_line_term _ _ H2). intros c Hc. apply H2, in_trim, Hc.
Qed.

Lemma take_dots_no_line_term (n : nat) (s : str) :
  no_line_term s -> take_dots n s = (firstn n s, skipn n s).
Proof.
  revert s; induction n as [|n IH]; intros s H; [reflexivity|].
  destruct s as [|c s]; [reflexivity|]. simpl.
  rewrite (H c (or_introl eq_refl)).
  rewrite (IH s (fun x Hx => H x (or_intror Hx))). reflexivity.
Qed.

(** On text without line terminators, [match(/.{1,n}/g)] cuts the text into
    consecutive pieces of [n] characters, the last one possibly shorter. *)
Lemma match_all_fuel_partition (n f : nat) (s : str) :
  0 < n -> length s <= f -> no_line_term s ->
  concat (match_all_fuel f n s) = s /\
  Forall (fun x => 1 <= length x <= n) (match_all_fuel f n s) /\
  Forall (fun x => length x = n) (removelast (match_all_fuel f n s)).
Proof.
  intros Hn. revert s; induction f as [|f IH]; intros s Hf Hs.
  - destruct s; [|simpl in Hf; lia]. simpl. repeat constructor.
  - destruct s as [|c s']; [simpl; repeat constructor|].
    simpl. rewrite (Hs c (or_introl eq_refl)).
    rewrite (take_dots_no_line_term n (c :: s') Hs).
    assert (Hl : length (skipn n (c :: s')) <= f)
      by (rewrite length_skipn; cbn [length] in Hf |- *; lia).
    assert (Hr : no_line_term (skipn n (c :: s')))
      by (intros x Hx; apply Hs, (in_skipn_in x _ n), Hx).
    destruct (IH _ Hl Hr) as [Hc [Hb Hlast]].
    split; [simpl; rewrite Hc; apply firstn_skipn|].
    split.
    + constructor; [|exact Hb]. rewrite length_firstn. simpl. lia.
    + destruct (match_all_fuel f n (skipn n (c :: s'))) as [|y l] eqn:E; [constructor|].
      change (removelast (firstn n (c :: s') :: y :: l))
        with (firstn n (c :: s') :: removelast (y :: l)).
      constructor; [|exact Hlast].
      inversion Hb as [|? ? Hy _]; subst.
      assert (Hlen : 1 <= length (skipn n (c :: s'))).
      { rewrite <- Hc. simpl. rewrite length_app. lia. }
      rewrite length_skipn in Hlen. rewrite length_firstn. lia.
Qed.

End ChunkerFacts.

Module ChunkerClaims.
Import Text Loader Chunker ChunkerFacts.

(** Claim C8: the ingestion chunker [text.match(/.{1,1000}/g)] has size 1000
    and overlap 0 (so size > overlap >= 0).  For every fetched body, the
    chunks of the cleaned play text (which holds no line terminator)
    concatenate, with nothing to remove between them, to exactly that text;
    each chunk has between 1 and 1000 characters, and every chunk but the
    last has exactly 1000. *)
Theorem play_chunks_partition (body : str) :
  concat (play_chunks (clean_play_text body)) = clean_play_text body /\
  Forall (fun x => 1 <= length x <= chunk_size) (play_chunks (clean_play_text body)) /\
  Forall (fun x => length x = chunk_size) (removelast (play_chunks (clean_play_text body))).
Proof.
  apply match_all_fuel_partition;
    [unfold chunk_size; lia|lia|apply clean_play_text_no_line_term].
Qed.

End ChunkerClaims.

Module ExtraFacts.
Import Text Ranker Loader Chunker Handlers Ingest TextFacts SortFacts LoaderFacts ChunkerFacts.

(** *** Text *)

Lemma to_lower_char_idem (c : ascii) : to_lower_char (to_lower_char c) = to_lower_char c.
Proof.
  destruct c as [b0 b1 b2 b3 b4 b5 b6 b7].
  destruct b0, b1, b2, b3, b4, b5, b6, b7; reflexivity.
Qed.

Lemma toLowerCase_idem (s : str) : toLowerCase (toLowerCase s) = toLowerCase s.
Proof.
  unfold toLowerCase. rewrite map_map.
  apply map_ext, to_lower_char_idem.
Qed.

Lemma keywords_lower (thr : nat) (q : str) : keywords thr (toLowerCase q) = keywords thr q.
Proof. unfold keywords. rewrite toLowerCase_idem. reflexivity. Qed.

Lemma drop_spaces_head (s r : str) (c : ascii) :
  drop_spaces s = c :: r -> is_space c = false.
Proof.
  induction s as [|d s IH]; simpl; [discriminate|].
  destruct (is_space d) eqn:E; [exact IH|]. intros H; injection H as <- _. exact E.
Qed.

Lemma drop_trailing_spaces_head (c : ascii) (r : str) :
  is_space c = false -> exists r', drop_trailing_spaces (c :: r) = c :: r'.
Proof.
  intros Hc. simpl. destruct (drop_trailing_spaces r) as [|x y].
  - rewrite Hc. exists []. reflexivity.
  - exists (x :: y). reflexivity.
Qed.

Lemma drop_trailing_spaces_last (s init : str) (c : ascii) :
  drop_trailing_spaces s = init ++ [c] -> is_space c = false.
Proof.
  revert init; induction s as [|d s IH]; intros init H; simpl in H.
  - destruct init; discriminate.
  - destruct (drop_trailing_spaces s) as [|x y] eqn:E.
    + destruct (is_space d) eqn:Ed; [destruct init; discriminate|].
      destruct init as [|i init]; [injection H as <-; exact Ed|].
      injection H as _ H. destruct init; discriminate.
    + destruct init as [|i init]; [injection H as _ H; discriminate|].
      injection H as _ H. apply (IH init). exact H.
Qed.

Lemma drop_trailing_spaces_idem (s : str) :
  drop_trailing_spaces (drop_trailing_spaces s) = drop_trailing_spaces s.
Proof.
  induction s as [|d s IH]; [reflexivity|]. simpl.
  destruct (drop_trailing_spaces s) as [|x y] eqn:E.
  - destruct (is_space d) eqn:Ed; [reflexivity|]. simpl. rewrite Ed. reflexivity.
  - change (drop_trailing_spaces (d :: x :: y)) with
      (match drop_trailing_spaces (x :: y) with
       | [] => if is_space d then [] else [d]
       | r => d :: r end).
    rewrite IH. reflexivity.
Qed.

(** [trim] gives a string with no whitespace at either end. *)
Lemma trim_ends (s : str) :
  (forall c rest, trim s = c :: rest -> is_space c = false) /\
  (forall init c, trim s = init ++ [c] -> is_space c = false).
Proof.
  unfold trim. split.
  - intros c rest H. destruct (drop_spaces s) as [|d r] eqn:E; [discriminate|].
    pose proof (drop_spaces_head s r d E) as Hd.
    destruct (drop_trailing_spaces_head d r Hd) as [r' Hr]. rewrite Hr in H.
    injection H as <- _. exact Hd.
  - intros init c H. apply (drop_trailing_spaces_last _ init c H).
Qed.

Lemma trim_idem (s : str) : trim (trim s) = trim s.
Proof.
  unfold trim at 2 3. destruct (drop_spaces s) as [|d r] eqn:E; [reflexivity|].
  pose proof (drop_spaces_head s r d E) as Hd.
  destruct (drop_trailing_spaces_head d r Hd) as [r' Hr].
  unfold trim. rewrite Hr. simpl. rewrite Hd. rewrite <- Hr.
  apply drop_trailing_spaces_idem.
Qed.

(** *** Rankers *)



Lemma collect_lines_subseq (kws lines : list str) :
  exists sel, subseq sel lines /\
    Forall (fun l => 0 < score kws (toLowerCase l) /\ 20 < length (trim l)) sel /\
    collect_lines kws lines = map trim sel.
Proof.
  induction lines as [|line lines IH].
  - exists []. split; [constructor|split; [constructor|reflexivity]].
  - destruct IH as [sel [Hs [Hf He]]]. simpl.
    destruct ((0 <? score kws (toLowerCase line)) && (20 <? length (trim line))) eqn:E.
    + apply andb_true_iff in E as [E1 E2]. apply Nat.ltb_lt in E1, E2.
      exists (line :: sel). split; [constructor; exact Hs|].
      split; [constructor; [split; assumption|exact Hf]|]. simpl. rewrite He. reflexivity.
    + exists sel. split; [constructor; exact Hs|split; [exact Hf|exact He]].
Qed.

(** *** Loader and play-text cleanups *)

(** Every whitespace character is a space. *)
Definition spaces_only (s : str) : Prop := forall c, In c s -> is_space c = true -> c = SP.

Lemma replace_spaces_spaces_only (f : nat) (s : str) :
  length s <= f -> spaces_only (replace_fuel f m_spaces s).
Proof.
  revert s; induction f as [|f IH]; intros s Hf c Hc.
  - destruct s; [contradiction|simpl in Hf; lia].
  - destruct s as [|d s]; [contradiction|]. simpl in Hc, Hf.
    destruct (is_space d) eqn:E.
    + destruct Hc as [Hc|Hc]; [subst; reflexivity|].
      apply (IH (drop_spaces s)); [pose proof (drop_spaces_length s); lia|exact Hc].
    + destruct Hc as [Hc|Hc]; [subst; rewrite E; discriminate|].
      apply (IH s); [lia|exact Hc].
Qed.

Lemma delimited_spaces_only (op cl : str) (s : str) :
  spaces_only s -> spaces_only (replace_all (m_delimited op cl) s).
Proof.
  intros H c. unfold replace_all.
  apply (replace_fuel_keeps (fun c => is_space c = true -> c = SP) (m_delimited op cl));
    [|exact H].
  intros s' r rest E. destruct (m_delimited_keeps _ _ _ _ _ E) as [_ H2].
  split; [|exact H2].
  unfold m_delimited in E. destruct (prefixb op s'); [|discriminate].
  destruct (lazy_until cl (skipn (length op) s')); [|discriminate].
  injection E as <- _. intros x [].
Qed.

Lemma trim_spaces_only (s : str) : spaces_only s -> spaces_only (trim s).
Proof. intros H c Hc. apply H, in_trim, Hc. Qed.

Lemma no_line_term_trim (s : str) : no_line_term s -> no_line_term (trim s).
Proof. intros H c Hc. apply H, in_trim, Hc. Qed.

Lemma brackets_no_line_term (s : str) :
  no_line_term s -> no_line_term (replace_all m_brackets s).
Proof.
  intros H c. unfold replace_all.
  apply (replace_fuel_keeps (fun c => is_line_term c = false) m_brackets);
    [intros s' r rest E; apply (m_delimited_keeps _ _ _ _ _ E)|exact H].
Qed.

(** *** Chunk counts *)

Lemma ceil_div_step (len n : nat) :
  0 < n -> 1 <= len -> ceil_div len n = S (ceil_div (len - n) n).
Proof.
  intros Hn Hl. unfold ceil_div.
  destruct (Nat.le_gt_cases len n) as [Hle|Hgt].
  - replace (len - n) with 0 by lia. rewrite (Nat.div_small (0 + n - 1) n) by lia.
    symmetry; apply (Nat.div_unique _ _ _ (len - 1)); lia.
  - replace (len + n - 1) with ((len - n + n - 1) + 1 * n) by lia.
    rewrite Nat.div_add by lia. lia.
Qed.

Lemma match_all_fuel_count (n f : nat) (s : str) :
  0 < n -> length s <= f -> no_line_term s ->
  length (match_all_fuel f n s) = ceil_div (length s) n.
Proof.
  intros Hn. revert s; induction f as [|f IH]; intros s Hf Hs.
  - destruct s; [|simpl in Hf; lia]. unfold ceil_div. simpl.
    symmetry; apply Nat.div_small; lia.
  - destruct s as [|c s'].
    + unfold ceil_div. simpl. symmetry; apply Nat.div_small; lia.
    + simpl. rewrite (Hs c (or_introl eq_refl)).
      rewrite (take_dots_no_line_term n (c :: s') Hs). simpl.
      assert (Hl : length (skipn n (c :: s')) <= f)
        by (rewrite length_skipn; cbn [length] in Hf |- *; lia).
      assert (Hr : no_line_term (skipn n (c :: s')))
        by (intros x Hx; apply Hs, (in_skipn_in x _ n), Hx).
      rewrite (IH _ Hl Hr), length_skipn.
      symmetry. apply (ceil_div_step (length (c :: s')) n Hn). simpl; lia.
Qed.

Lemma play_chunks_count (t : str) :
  no_line_term t -> length (play_chunks t) = ceil_div (length t) chunk_size.
Proof. intros H. apply match_all_fuel_count; [unfold chunk_size; lia|lia|exact H]. Qed.

Lemma clean_play_text_simple_blank (text : str) :
  no_line_term (replace_all m_brackets (trim (replace_all m_spaces text))) /\
  clean_play_text_simple text = replace_all m_brackets (trim (replace_all m_spaces text)).
Proof.
  assert (H : no_line_term (replace_all m_brackets (trim (replace_all m_spaces text)))).
  { apply brackets_no_line_term, no_line_term_trim, replace_spaces_no_line_term. lia. }
  split; [exact H|]. unfold clean_play_text_simple. apply m_blank_no_line_term, H.
Qed.

(** *** Gemini-powered ingestion *)

Lemma fetchPlayText_no_line_term (env : ingest_env) (play : string) :
  no_line_term (fetchPlayText env play).
Proof.
  unfold fetchPlayText. destruct (ie_fetch env play);
    [apply clean_play_text_no_line_term|intros c []].
Qed.

Lemma ingest_loop_ok (env : ingest_env) (works : list string) (ac : list str) (tp : nat)
    (eff : list ingest_effect) :
  (forall f, ie_write env f = None) ->
  exists eff', ingest_loop env works ac tp eff =
    (inr (ac ++ concat (map play_chunks (map (fetchPlayText env) works)),
          tp + length (filter nonempty (map (fetchPlayText env) works))), eff ++ eff').
Proof.
  intros Hw. revert ac tp eff; induction works as [|w works IH]; intros ac tp eff.
  - exists []. simpl. rewrite !app_nil_r, Nat.add_0_r. reflexivity.
  - simpl. destruct (fetchPlayText env w) as [|c r] eqn:E.
    + destruct (IH ac tp eff) as [eff' H]. exists eff'. rewrite H. reflexivity.
    + rewrite Hw. destruct (IH (ac ++ play_chunks (c :: r)) (S tp)
        (eff ++ [WriteFile (w ++ ".txt")%string (c :: r)])) as [eff' H].
      exists (WriteFile (w ++ ".txt")%string (c :: r) :: eff'). rewrite H.
      rewrite <- !app_assoc. simpl. do 3 f_equal. lia.
Qed.

Lemma length_concat_chunks (texts : list str) :
  (forall t, In t texts -> no_line_term t) ->
  length (concat (map play_chunks texts)) = list_sum (map (fun t => ceil_div (length t) chunk_size) texts).
Proof.
  induction texts as [|t texts IH]; intros H; [reflexivity|].
  simpl. rewrite length_app, play_chunks_count by (apply H; left; reflexivity).
  rewrite IH by (intros x Hx; apply H; right; exact Hx). reflexivity.
Qed.

Lemma concat_chunks_nil (texts : list str) :
  forallb (fun t => negb (nonempty t)) texts = true -> concat (map play_chunks texts) = [].
Proof.
  induction texts as [|t texts IH]; [reflexivity|]. simpl.
  intros H. apply andb_true_iff in H as [H1 H2]. destruct t; [|discriminate].
  simpl. apply IH, H2.
Qed.

Lemma ceil_div_pos (len : nat) : 1 <= len -> 1 <= ceil_div len chunk_size.
Proof.
  intros H. rewrite (ceil_div_step len chunk_size) by (unfold chunk_size; lia). lia.
Qed.

Lemma list_sum_ceil_pos (texts : list str) :
  existsb nonempty texts = true ->
  1 <= list_sum (map (fun t => ceil_div (length t) chunk_size) texts).
Proof.
  assert (E : forall a l, list_sum (a :: l) = a + list_sum l) by reflexivity.
  induction texts as [|t texts IH]; [discriminate|].
  rewrite map_cons, E. cbn [existsb].
  intros H. apply orb_true_iff in H as [H|H].
  - destruct t as [|c r]; [discriminate|].
    pose proof (ceil_div_pos (length (c :: r)) ltac:(simpl; lia)) as Hc.
    eapply Nat.le_trans; [exact Hc|apply Nat.le_add_r].
  - specialize (IH H). eapply Nat.le_trans; [exact IH|apply Nat.le_add_l].
Qed.

(** *** [extractPlays] *)

Lemma prefixb_iff (p s : str) : prefixb p s = true <-> exists b, s = p ++ b.
Proof.
  revert s; induction p as [|a p IH]; intros s.
  - split; [intros _; exists s; reflexivity|reflexivity].
  - destruct s as [|b s]; simpl.
    + split; [discriminate|intros [x H]; discriminate].
    + rewrite andb_true_iff, Ascii.eqb_eq, IH. split.
      * intros [<- [x ->]]. exists x. reflexivity.
      * intros [x H]. injection H as -> ->. split; [reflexivity|exists x; reflexivity].
Qed.

Lemma includes_iff (s k : str) : includes s k = true <-> exists a b, s = a ++ k ++ b.
Proof.
  induction s as [|c s IH]; simpl.
  - rewrite orb_false_r, prefixb_iff. split.
    + intros [b Hb]. exists [], b. exact Hb.
    + intros [a [b H]]. destruct a; [|discriminate]. exists b. exact H.
  - rewrite orb_true_iff, prefixb_iff, IH. split.
    + intros [[b Hb]|[a [b Hab]]].
      * exists [], b. exact Hb.
      * exists (c :: a), b. rewrite Hab. reflexivity.
    + intros [a [b H]]. destruct a as [|x a].
      * left. exists b. exact H.
      * right. injection H as _ H. exists a, b. exact H.
Qed.

Lemma includes_trans (s k t : str) :
  includes s k = true -> includes k t = true -> includes s t = true.
Proof.
  rewrite !includes_iff. intros [a [b ->]] [c [d ->]].
  exists (a ++ c), (d ++ b). rewrite <- !app_assoc. reflexivity.
Qed.

Lemma find_title_in (up : str) (titles : list str) (t : str) :
  find_title up titles = Some t -> In t titles /\ includes up t = true.
Proof.
  induction titles as [|x titles IH]; simpl; [discriminate|].
  destruct (includes up x) eqn:E.
  - intros H; injection H as <-. split; [left; reflexivity|exact E].
  - intros H. destruct (IH H) as [H1 H2]. split; [right; exact H1|exact H2].
Qed.

(** The title found is at or before any listed title the section includes. *)
Lemma find_title_first (up : str) (pre post : list str) (x t : str) :
  includes up x = true -> find_title up (pre ++ x :: post) = Some t -> In t (pre ++ [x]).
Proof.
  intros Hx. induction pre as [|y pre IH]; simpl.
  - rewrite Hx. intros H; injection H as <-. left; reflexivity.
  - destruct (includes up y).
    + intros H; injection H as <-. left; reflexivity.
    + intros H. right. apply IH, H.
Qed.

Definition henry_V : str := lit "HENRY V".

Definition titles_before_henry_V : list str :=
  firstn 13 playTitles.

Definition unreachable_titles : list str :=
  map lit ["HENRY VI, PART 1"; "HENRY VI, PART 2"; "HENRY VI, PART 3"; "HENRY VIII"]%string.

Lemma playTitles_split : playTitles = titles_before_henry_V ++ henry_V :: skipn 14 playTitles.
Proof. vm_compute. reflexivity. Qed.

Lemma find_title_reachable (up t : str) :
  find_title up playTitles = Some t -> In t playTitles /\ ~ In t unreachable_titles.
Proof.
  intros H. destruct (find_title_in _ _ _ H) as [Hin Hup]. split; [exact Hin|].
  intros Hu.
  assert (Hv : includes up henry_V = true).
  { apply (includes_trans up t henry_V Hup).
    simpl in Hu; repeat destruct Hu as [<-|Hu]; [vm_compute; reflexivity ..|contradiction]. }
  rewrite playTitles_split in H. pose proof (find_title_first _ _ _ _ _ Hv H) as Hb.
  assert (Hd : forallb (fun u => negb (existsb (fun v => if list_eq_dec ascii_dec u v then true else false)
                  (titles_before_henry_V ++ [henry_V]))) unreachable_titles = true)
    by (vm_compute; reflexivity).
  rewrite forallb_forall in Hd. specialize (Hd t Hu). apply negb_true_iff in Hd.
  assert (He : existsb (fun v => if list_eq_dec ascii_dec t v then true else false)
                 (titles_before_henry_V ++ [henry_V]) = true).
  { apply existsb_exists. exists t. split; [exact Hb|].
    destruct (list_eq_dec ascii_dec t t); [reflexivity|contradiction]. }
  rewrite He in Hd. discriminate.
Qed.

Lemma titles_nonempty (t : str) : In t playTitles -> nonempty t = true.
Proof.
  intros H. assert (Hall : forallb nonempty playTitles = true) by (vm_compute; reflexivity).
  rewrite forallb_forall in Hall. apply Hall, H.
Qed.

Lemma set_prop_keys (k v x : str) (m : list (str * str)) :
  In x (map fst (set_prop k v m)) -> x = k \/ In x (map fst m).
Proof.
  induction m as [|[k' v'] m IH]; simpl.
  - intros [H|[]]. left; symmetry; exact H.
  - destruct (list_eq_dec ascii_dec k k') as [<-|Hne]; simpl.
    + intros [H|H]; [left; symmetry; exact H|right; right; exact H].
    + intros [H|H]; [right; left; exact H|].
      destruct (IH H) as [H'|H']; [left; exact H'|right; right; exact H'].
Qed.

Lemma set_prop_nodup (k v : str) (m : list (str * str)) :
  NoDup (map fst m) -> NoDup (map fst (set_prop k v m)).
Proof.
  induction m as [|[k' v'] m IH]; simpl; intros H.
  - constructor; [intros []|constructor].
  - inversion H as [|? ? Hn Hd]; subst.
    destruct (list_eq_dec ascii_dec k k') as [<-|Hne]; simpl.
    + constructor; assumption.
    + constructor; [|apply IH, Hd].
      intros Hin. destruct (set_prop_keys _ _ _ _ Hin) as [E|E]; [exact (Hne (eq_sym E))|exact (Hn E)].
Qed.

Lemma set_prop_values (k v x y : str) (m : list (str * str)) :
  In (x, y) (set_prop k v m) -> (x = k /\ y = v) \/ In (x, y) m.
Proof.
  induction m as [|[k' v'] m IH]; simpl.
  - intros [H|[]]. injection H as <- <-. left; split; reflexivity.
  - destruct (list_eq_dec ascii_dec k k') as [<-|Hne]; simpl.
    + intros [H|H]; [injection H as <- <-; left; split; reflexivity|right; right; exact H].
    + intros [H|H]; [right; left; exact H|].
      destruct (IH H) as [H'|H']; [left; exact H'|right; right; exact H'].
Qed.

Lemma get_set_prop (k v : str) (m : list (str * str)) : get_prop k (set_prop k v m) = Some v.
Proof.
  induction m as [|[k' v'] m IH]; simpl.
  - destruct (list_eq_dec ascii_dec k k); [reflexivity|contradiction].
  - destruct (list_eq_dec ascii_dec k k') as [<-|Hne]; simpl.
    + destruct (list_eq_dec ascii_dec k k); [reflexivity|contradiction].
    + destruct (list_eq_dec ascii_dec k k') as [E|_]; [contradiction|exact IH].
Qed.

(** The invariant of the [extractPlays] loop. *)
Definition reachable (t : str) : Prop := exists up, find_title up playTitles = Some t.

Definition good_plays (m : list (str * str)) : Prop :=
  NoDup (map fst m) /\
  forall x y, In (x, y) m -> reachable x /\ trim y = y /\ y <> [].

Definition extract_inv (st : extract_state) : Prop :=
  good_plays (plays st) /\ (currentPlay st = [] \/ reachable (currentPlay st)).

Lemma commit_good (st : extract_state) : extract_inv st -> good_plays (commit st).
Proof.
  intros [[Hn Hv] Hc]. unfold commit.
  destruct (nonempty (currentPlay st) && nonempty (trim (currentPlayText st))) eqn:E;
    [|split; assumption].
  apply andb_true_iff in E as [E1 E2]. split; [apply set_prop_nodup, Hn|].
  intros x y Hin. destruct (set_prop_values _ _ _ _ _ Hin) as [[-> ->]|H]; [|apply Hv, H].
  split; [destruct Hc as [Hc|Hc]; [rewrite Hc in E1; discriminate|exact Hc]|].
  split; [apply trim_idem|]. intros Ht; rewrite Ht in E2; discriminate.
Qed.

Lemma extract_step_inv (st : extract_state) (section : str) :
  extract_inv st -> extract_inv (extract_step st section).
Proof.
  intros H. unfold extract_step.
  destruct (find_title (toUpperCase section) playTitles) as [title|] eqn:E.
  - split; [apply commit_good, H|right; exists (toUpperCase section); exact E].
  - destruct (nonempty (currentPlay st)); [|exact H].
    destruct H as [H1 H2]. split; assumption.
Qed.

Lemma fold_extract_inv (sections : list str) (st : extract_state) :
  extract_inv st -> extract_inv (fold_left extract_step sections st).
Proof.
  revert st; induction sections as [|s sections IH]; intros st H; [exact H|].
  simpl. apply IH, extract_step_inv, H.
Qed.

Lemma fold_extract_none (sections : list str) (st : extract_state) :
  currentPlay st = [] ->
  (forall s, In s sections -> find_title (toUpperCase s) playTitles = None) ->
  fold_left extract_step sections st = st.
Proof.
  revert st; induction sections as [|s sections IH]; intros st Hc H; [reflexivity|].
  simpl. unfold extract_step at 2. rewrite (H s (or_introl eq_refl)), Hc. simpl.
  apply IH; [exact Hc|intros x Hx; apply H; right; exact Hx].
Qed.

(** Sections naming no title are appended to the current play's text. *)
Lemma fold_extract_append (rest : list str) (m : list (str * str)) (t x : str) :
  nonempty t = true ->
  (forall s, In s rest -> find_title (toUpperCase s) playTitles = None) ->
  fold_left extract_step rest {| plays := m; currentPlay := t; currentPlayText := x |}
  = {| plays := m; currentPlay := t;
       currentPlayText := x ++ concat (map (fun r => [NL; NL] ++ r) rest) |}.
Proof.
  revert x; induction rest as [|r rest IH]; intros x Ht H.
  - simpl. rewrite app_nil_r. reflexivity.
  - simpl. unfold extract_step at 2. rewrite (H r (or_introl eq_refl)). simpl. rewrite Ht.
    rewrite IH; [|exact Ht|intros s Hs; apply H; right; exact Hs].
    rewrite <- !app_assoc. reflexivity.
Qed.

(** *** Play file names *)

Definition file_char (c : ascii) : ascii :=
  if is_lower_alnum (to_lower_char c) then to_lower_char c else "_"%char.

Lemma replace_not_alnum (f : nat) (s : str) :
  length s <= f ->
  replace_fuel f m_not_alnum s = map (fun c => if is_lower_alnum c then c else "_"%char) s.
Proof.
  revert s; induction f as [|f IH]; intros s Hf.
  - destruct s; [reflexivity|simpl in Hf; lia].
  - destruct s as [|c s]; [reflexivity|]. simpl in Hf |- *.
    destruct (is_lower_alnum c); simpl; f_equal; apply IH; lia.
Qed.

(** *** The hash of [createSimpleEmbeddings] *)

Lemma ToInt32_shift (z : Z) : exists k, ToInt32 z = (z + k * two32)%Z.
Proof.
  unfold ToInt32. pose proof (Z.div_mod z two32 ltac:(unfold two32; lia)) as Hd.
  destruct (Z.ltb (z mod two32) 2147483648).
  - exists (- (z / two32))%Z. lia.
  - exists (- (z / two32) - 1)%Z. lia.
Qed.

Lemma ToInt32_congr (z k : Z) : ToInt32 (z + k * two32) = ToInt32 z.
Proof. unfold ToInt32. rewrite Z_mod_plus_full. reflexivity. Qed.

Lemma ToInt32_range (z : Z) : (-2147483648 <= ToInt32 z < 2147483648)%Z.
Proof.
  unfold ToInt32. pose proof (Z.mod_pos_bound z two32 ltac:(unfold two32; lia)) as Hb.
  destruct (Z.ltb (z mod two32) 2147483648) eqn:E.
  - apply Z.ltb_lt in E. unfold two32 in *. lia.
  - apply Z.ltb_ge in E. unfold two32 in *. lia.
Qed.

Lemma ToInt32_small (z : Z) : (-2147483648 <= z < 2147483648)%Z -> ToInt32 z = z.
Proof.
  intros H. destruct (Z.le_gt_cases 0 z) as [Hp|Hn].
  - unfold ToInt32. rewrite Z.mod_small by (unfold two32; lia).
    destruct (Z.ltb_spec z 2147483648); lia.
  - replace z with ((z + two32) + (-1) * two32)%Z by ring. rewrite ToInt32_congr.
    unfold ToInt32. rewrite Z.mod_small by (unfold two32; lia).
    destruct (Z.ltb_spec (z + two32) 2147483648); unfold two32 in *; lia.
Qed.

Lemma hash_fold (s : str) (h p : Z) :
  (exists k, h = (p + k * two32)%Z) ->
  exists k, fold_left hash_step s h =
    (fold_left (fun h c => 31 * h + Z.of_nat (nat_of_ascii c))%Z s p + k * two32)%Z.
Proof.
  revert h p; induction s as [|c s IH]; intros h p [k Hk]; cbn [fold_left].
  - exists k. exact Hk.
  - apply IH. unfold hash_step.
    destruct (ToInt32_shift h) as [k1 H1]. destruct (ToInt32_shift (ToInt32 h * 32)) as [k2 H2].
    rewrite H2, H1.
    destruct (ToInt32_shift ((h + k1 * two32) * 32 + k2 * two32 - h + Z.of_nat (nat_of_ascii c)))
      as [k3 H3].
    rewrite H3. exists (31 * k + 32 * k1 + k2 + k3)%Z. rewrite Hk. ring.
Qed.

Lemma simple_hash_range (s : str) : (-2147483648 <= simple_hash s < 2147483648)%Z.
Proof.
  unfold simple_hash. rewrite <- (rev_involutive s). generalize (rev s) as l. intros l.
  destruct l as [|c l]; simpl; [lia|].
  rewrite fold_left_app. simpl. apply ToInt32_range.
Qed.

End ExtraFacts.

Module ExtraClaims.
Import Text Ranker Loader Chunker Handlers Ingest TextFacts SortFacts LoaderFacts ChunkerFacts
  ExtraFacts.

Definition ingest_env_hamlet : ingest_env := {|
  ie_mkdir := None;
  ie_fetch := fun play => if String.eqb play "hamlet" then Some (lit "To be, or not to be") else None;
  ie_write := fun _ => None
|}.

Definition text_preface_hamlet : str :=
  lit "Preface" ++ [NL; NL] ++ lit "HAMLET, PRINCE OF DENMARK" ++ [NL; SP; NL] ++ lit "Act one".

Definition body_number : json := JObj [("question"%string, JNum (QArith_base.Qmake 5 1))].

(** The rankers and [findRelevantInfo] use the question only lower-cased:
    changing its case changes nothing. *)
Theorem ranker_question_case_insensitive (text q corpus : str) (m : nat) :
  findRelevantPassages_sentences text (toLowerCase q) m = findRelevantPassages_sentences text q m /\
  findRelevantPassages_lines (toLowerCase q) corpus = findRelevantPassages_lines q corpus /\
  findRelevantInfo (toLowerCase q) = findRelevantInfo q.
Proof.
  split; [|split].
  - unfold findRelevantPassages_sentences. rewrite keywords_lower. reflexivity.
  - unfold findRelevantPassages_lines. rewrite keywords_lower. reflexivity.
  - unfold findRelevantInfo. rewrite toLowerCase_idem. reflexivity.
Qed.

(** Sentence mode never returns more than [maxLength + 1] characters, with or
    without the prefix fallback. *)
Theorem sentence_mode_length_bound (text q : str) (m : nat) :
  length (findRelevantPassages_sentences text q m) <= m + 1.
Proof.
  unfold findRelevantPassages_sentences.
  pose proof (append_loop_length m
    (sort_desc (map (score_sentence (keywords 2 q)) (candidates text))) [] ltac:(simpl; lia)) as H.
  destruct (append_loop m (sort_desc (map (score_sentence (keywords 2 q)) (candidates text))) []).
  - rewrite length_firstn. lia.
  - lia.
Qed.


(** The text returned by [fetchMITShakespeareText] has no whitespace other
    than the space character, and none at either end. *)
Theorem normalize_whitespace_shape (raw : str) :
  spaces_only (normalize raw) /\
  (forall c rest, normalize raw = c :: rest -> is_space c = false) /\
  (forall init c, normalize raw = init ++ [c] -> is_space c = false).
Proof.
  unfold normalize, cleanup. split; [|apply trim_ends].
  apply trim_spaces_only. unfold m_notice, m_angles.
  apply delimited_spaces_only, delimited_spaces_only.
  unfold replace_all at 1. apply replace_spaces_spaces_only. lia.
Qed.

(** The play text of the first [fetchPlayText] of part_002 has no line
    terminator, no whitespace other than the space, and none at either end. *)
Theorem clean_play_text_shape (body : str) :
  no_line_term (clean_play_text body) /\ spaces_only (clean_play_text body) /\
  (forall c rest, clean_play_text body = c :: rest -> is_space c = false) /\
  (forall init c, clean_play_text body = init ++ [c] -> is_space c = false).
Proof.
  split; [apply clean_play_text_no_line_term|]. split; [|apply trim_ends].
  unfold clean_play_text.
  rewrite m_blank_no_line_term
    by (apply brackets_no_line_term, replace_spaces_no_line_term; lia).
  apply trim_spaces_only. unfold m_brackets. apply delimited_spaces_only.
  unfold replace_all at 1. apply replace_spaces_spaces_only. lia.
Qed.

(** In the second [fetchPlayText] of part_002 the blank-line replacement never
    changes the text: after the whitespace collapse it holds no newline.  The
    result has no line terminator and no whitespace other than the space. *)
Theorem clean_play_text_simple_shape (body : str) :
  clean_play_text_simple body = replace_all m_brackets (trim (replace_all m_spaces body)) /\
  no_line_term (clean_play_text_simple body) /\ spaces_only (clean_play_text_simple body).
Proof.
  destruct (clean_play_text_simple_blank body) as [Hn He]. rewrite He.
  split; [reflexivity|split; [exact Hn|]].
  unfold m_brackets. apply delimited_spaces_only, trim_spaces_only.
  unfold replace_all at 1. apply replace_spaces_spaces_only. lia.
Qed.

(** On a cleaned play text, [text.match(/.{1,1000}/g)] yields exactly
    [Math.ceil(text.length / 1000)] chunks, the estimate the simplified
    ingestion reports. *)
Theorem play_chunks_count_ceil (body : str) :
  length (play_chunks (clean_play_text body)) = ceil_div (length (clean_play_text body)) chunk_size /\
  length (play_chunks (clean_play_text_simple body))
    = ceil_div (length (clean_play_text_simple body)) chunk_size.
Proof.
  split; apply play_chunks_count;
    [apply clean_play_text_no_line_term|apply (clean_play_text_simple_shape body)].
Qed.

(** When the file system works, the Gemini-powered ingestion answers 500
    exactly when every play text came back empty; otherwise it answers 200
    with the number of non-empty plays and the total chunk count, the sum of
    Math.ceil(length / 1000) over the play texts, and its index lists all ten
    works, fetched or not. *)
Theorem ingest_POST_counts (env : ingest_env) :
  ie_mkdir env = None -> (forall f, ie_write env f = None) ->
  (forallb (fun t => negb (nonempty t)) (map (fetchPlayText env) SHAKESPEARE_WORKS) = true ->
   fst (ingest_POST env) = ingest_no_data) /\
  (existsb nonempty (map (fetchPlayText env) SHAKESPEARE_WORKS) = true ->
   exists msg note eff, ingest_POST env =
     (Json 200 [("message"%string, msg);
                ("plays"%string, jnum (length (filter nonempty (map (fetchPlayText env) SHAKESPEARE_WORKS))));
                ("chunks"%string, jnum (list_sum (map (fun t => ceil_div (length t) chunk_size)
                                                     (map (fetchPlayText env) SHAKESPEARE_WORKS))));
                ("note"%string, note)],
      eff ++ [WriteIndex (length (filter nonempty (map (fetchPlayText env) SHAKESPEARE_WORKS)))
                (list_sum (map (fun t => ceil_div (length t) chunk_size)
                             (map (fetchPlayText env) SHAKESPEARE_WORKS)))
                SHAKESPEARE_WORKS])).
Proof.
  intros Hm Hw.
  destruct (ingest_loop_ok env SHAKESPEARE_WORKS [] 0 [] Hw) as [eff' Hl].
  assert (Hnl : forall t, In t (map (fetchPlayText env) SHAKESPEARE_WORKS) -> no_line_term t).
  { intros t Ht. apply in_map_iff in Ht as [w [<- _]]. apply fetchPlayText_no_line_term. }
  unfold ingest_POST. rewrite Hm, Hl. cbn [app Nat.add]. split.
  - intros Hall. rewrite (concat_chunks_nil _ Hall). reflexivity.
  - intros Hex. pose proof (list_sum_ceil_pos _ Hex) as Hpos.
    pose proof (length_concat_chunks _ Hnl) as Hlen.
    destruct (concat (map play_chunks (map (fetchPlayText env) SHAKESPEARE_WORKS))) as [|x y] eqn:E.
    + cbn [length] in Hlen. rewrite <- Hlen in Hpos. inversion Hpos.
    + rewrite Hw. rewrite <- Hlen.
      eexists; eexists; exists eff'. reflexivity.
Qed.

Lemma ingest_POST_counts_witness :
  exists msg note eff, ingest_POST ingest_env_hamlet =
    (Json 200 [("message"%string, msg); ("plays"%string, jnum 1); ("chunks"%string, jnum 1);
               ("note"%string, note)],
     eff ++ [WriteIndex 1 1 SHAKESPEARE_WORKS]).
Proof.
  exact (proj2 (ingest_POST_counts ingest_env_hamlet eq_refl (fun _ => eq_refl)) eq_refl).
Defined.

(** [extractPlays] gives distinct keys, each a listed title other than the
    three HENRY VI parts and HENRY VIII (a section naming one of them matches
    the earlier-listed 'HENRY V' first), with trimmed non-empty values; a text
    whose sections name no title gives an empty object. *)
Theorem extractPlays_keys (text : str) :
  NoDup (map fst (extractPlays text)) /\
  (forall k v, In (k, v) (extractPlays text) ->
     In k playTitles /\ ~ In k unreachable_titles /\ trim v = v /\ v <> []) /\
  ((forall sec, In sec (split_re (m_blank []) text) -> find_title (toUpperCase sec) playTitles = None) ->
   extractPlays text = []).
Proof.
  assert (Hi : extract_inv {| plays := []; currentPlay := []; currentPlayText := [] |}).
  { split; [split; [constructor|intros x y []]|left; reflexivity]. }
  pose proof (commit_good _ (fold_extract_inv (split_re (m_blank []) text) _ Hi)) as [Hn Hv].
  split; [exact Hn|split].
  - intros k v Hin. destruct (Hv k v Hin) as [[up Hr] [Ht Hne]].
    destruct (find_title_reachable _ _ Hr) as [H1 H2]. auto.
  - intros Hnone. unfold extractPlays.
    rewrite fold_extract_none; [reflexivity|reflexivity|exact Hnone].
Qed.

(** The text [extractPlays] stores for a title is the trimmed text from the
    last section whose first listed title it is, up to the end, when no later
    section names a title: earlier sections of the same play are overwritten. *)
Theorem extractPlays_last_section (text : str) (pre rest : list str) (sec t : str) :
  split_re (m_blank []) text = pre ++ sec :: rest ->
  find_title (toUpperCase sec) playTitles = Some t ->
  (forall r, In r rest -> find_title (toUpperCase r) playTitles = None) ->
  nonempty (trim (sec ++ concat (map (fun r => [NL; NL] ++ r) rest))) = true ->
  get_prop t (extractPlays text) = Some (trim (sec ++ concat (map (fun r => [NL; NL] ++ r) rest))).
Proof.
  intros Hs Ht Hr Hne. unfold extractPlays. rewrite Hs, fold_left_app. cbn [fold_left].
  set (st := fold_left extract_step pre {| plays := []; currentPlay := []; currentPlayText := [] |}).
  assert (E : extract_step st sec = {| plays := commit st; currentPlay := t; currentPlayText := sec |})
    by (unfold extract_step; rewrite Ht; reflexivity).
  rewrite E.
  assert (Htn : nonempty t = true) by (apply titles_nonempty, (find_title_in _ _ _ Ht)).
  rewrite (fold_extract_append rest (commit st) t sec Htn Hr).
  unfold commit at 1. cbn [currentPlay currentPlayText plays]. rewrite Htn, Hne. simpl.
  apply get_set_prop.
Qed.

Lemma extractPlays_last_section_witness :
  get_prop (lit "HAMLET") (extractPlays text_preface_hamlet)
  = Some (trim (lit "HAMLET, PRINCE OF DENMARK" ++ concat (map (fun r => [NL; NL] ++ r) [lit "Act one"]))).
Proof.
  apply (extractPlays_last_section text_preface_hamlet [lit "Preface"] [lit "Act one"]
           (lit "HAMLET, PRINCE OF DENMARK") (lit "HAMLET")).
  - vm_compute. reflexivity.
  - vm_compute. reflexivity.
  - intros r [<-|[]]. vm_compute. reflexivity.
  - vm_compute. reflexivity.
Defined.

(** The play file name maps each character of the title to itself
    lower-cased when that is a-z or 0-9, and to '_' otherwise, then appends
    '.txt'. *)
Theorem play_filename_chars (name : str) :
  play_filename name = map file_char name ++ lit ".txt" /\
  forallb (fun c => is_lower_alnum c || Ascii.eqb c "_"%char) (map file_char name) = true.
Proof.
  split.
  - unfold play_filename, replace_all. rewrite replace_not_alnum by lia.
    unfold toLowerCase. rewrite map_map. reflexivity.
  - apply forallb_forall. intros c Hc. apply in_map_iff in Hc as [d [<- _]].
    unfold file_char. destruct (is_lower_alnum (to_lower_char d)) eqn:E.
    + rewrite E. reflexivity.
    + reflexivity.
Qed.

(** The hash of [createSimpleEmbeddings] is the 32-bit signed wrap-around of
    the polynomial hash with multiplier 31 (Java's [String.hashCode]). *)
Theorem simple_hash_poly31 (s : str) :
  simple_hash s = ToInt32 (poly31 s) /\ (-2147483648 <= simple_hash s < 2147483648)%Z.
Proof.
  split; [|apply simple_hash_range].
  destruct (hash_fold s 0 0 ltac:(exists 0%Z; reflexivity)) as [k Hk].
  rewrite <- (ToInt32_small (simple_hash s)) by apply simple_hash_range.
  unfold simple_hash. rewrite Hk. apply ToInt32_congr.
Qed.

(** A truthy question that is not a string (a number, [true], an array or an
    object) passes the 400 check and then fails with 500: in ask-gemini
    whenever the corpus is non-empty, in the part_001 demo always. *)
Theorem nonstring_question_500 (body q : json) :
  get_question body = Some (Val q) -> truthy q = true -> (forall s, q <> JStr s) ->
  (forall env, gm_data env <> [] -> fst (gemini_POST env body) = gemini_failure) /\
  (forall mitData, fst (demo_POST mitData body) = demo_failure).
Proof.
  intros Hq Ht Hs. split.
  - intros env Hd. unfold gemini_POST. rewrite Hq, Ht. simpl.
    destruct (gm_data env) as [|c d]; [contradiction|].
    destruct q; try reflexivity. exfalso; exact (Hs s eq_refl).
  - intros mitData. unfold demo_POST. rewrite Hq, Ht. simpl.
    destruct q; try (exfalso; exact (Hs s eq_refl));
      destruct mitData as [[|c d]|]; reflexivity.
Qed.

Lemma nonstring_question_500_witness :
  fst (demo_POST None body_number) = demo_failure.
Proof.
  apply (nonstring_question_500 body_number (JNum (QArith_base.Qmake 5 1))).
  - reflexivity.
  - reflexivity.
  - intros s H; discriminate.
Defined.

(** The part_001 demo answers every non-empty string question with 200 and an
    answer, whether or not the corpus file is available. *)
Theorem demo_string_question_200 (mitData : option str) (body : json) (s : str) :
  get_question body = Some (Val (JStr s)) -> s <> [] ->
  exists answer fields, fst (demo_POST mitData body) = Json 200 (("answer"%string, JStr answer) :: fields).
Proof.
  intros Hq Hs. unfold demo_POST. rewrite Hq.
  destruct s as [|c s]; [contradiction|]. simpl.
  destruct mitData as [[|x d]|]; eexists; eexists; reflexivity.
Qed.

Lemma demo_string_question_200_witness :
  exists answer fields,
    fst (demo_POST None (JObj [("question"%string, JStr (lit "Who is Hamlet?"))]))
    = Json 200 (("answer"%string, JStr answer) :: fields).
Proof.
  apply (demo_string_question_200 None _ (lit "Who is Hamlet?")); [reflexivity|discriminate].
Defined.

End ExtraClaims.
